(** * scrolling-mpris: registry, marquee engine and text encoder of [mpris.cpp]

    A shallow embedding of the parts of [src/mpris.cpp] that carry state or
    policy: the text encoder, the metadata parser, the player registry
    ([PlayerManager]) and the marquee engine ([OutputGenerator]).

    Conventions.
    - [std::string] is a [string] of bytes ([ascii]).
    - [size_t] values that are free-running (the scroll offset, the selected
      index) are [Z] with the 64-bit wrap-around written out; positions
      inside a container are [nat].
    - Output streams are the list of what was written to them.
    - glib, playerctl and [std::filesystem] are external libraries; the few
      functions of theirs the program calls are modelled from their
      documented behaviour in the modules [GLib] and [Fs].
    - [Lifecycle] holds the exit handler and [App] the callbacks of the
      main loop, wired as [main] and the constructors wire them. *)

From Stdlib Require Import ZArith Lia Ascii String List Bool.
From stdpp Require Import base numbers option list strings gmap.

Local Open Scope string_scope.

(** ** Text encoder *)

Module TextEncoder.

(** One iteration of the [for (auto c : str) switch (c)] loop of [encode]:
    the buffer after appending the replacement of [c]. *)
Definition encode_step (buffer : string) (c : ascii) : string :=
  match c with
  | "&"%char => buffer +:+ "&amp;"
  | "034"%char => buffer +:+ "&quot;"
  | "'"%char => buffer +:+ "&apos;"
  | "<"%char => buffer +:+ "&lt;"
  | ">"%char => buffer +:+ "&gt;"
  | "010"%char => buffer +:+ "\n"
  | "009"%char => buffer +:+ "\t"
  | "013"%char => buffer +:+ "\r"
  | _ => buffer +:+ String c EmptyString
  end.

Fixpoint encode_loop (str : string) (buffer : string) : string :=
  match str with
  | EmptyString => buffer
  | String c rest => encode_loop rest (encode_step buffer c)
  end.

(** [std::string encode(std::string_view str)] *)
Definition encode (str : string) : string := encode_loop str EmptyString.

(** The [switch] of [EscapedString]'s [operator<<]: the local [escape]
    stays empty for a byte that needs no escaping. *)
Definition escape_of (c : ascii) : string :=
  match c with
  | "&"%char => "&amp;"
  | "034"%char => "&quot;"
  | "'"%char => "&apos;"
  | "<"%char => "&lt;"
  | ">"%char => "&gt;"
  | "010"%char => "\n"
  | "009"%char => "\t"
  | "013"%char => "\r"
  | _ => EmptyString
  end.

Definition string_empty (s : string) : bool :=
  match s with EmptyString => true | String _ _ => false end.

(** The [for (i = 0; i < s.size(); ++i)] loop of [operator<<]: [rest] is
    what is left of [s] from position [i]; [last] is the start of the
    pending chunk of safe bytes; [os] is what has been written. *)
Fixpoint escaped_loop (s rest : string) (i last : nat) (os : string)
  : nat * string :=
  match rest with
  | EmptyString => (last, os)
  | String c rest' =>
      let escape := escape_of c in
      if negb (string_empty escape) then
        let os1 := if (last <? i)%nat
                   then os +:+ substring last (i - last) s else os in
        escaped_loop s rest' (S i) (S i) (os1 +:+ escape)
      else escaped_loop s rest' (S i) last os
  end.

(** The flush after the loop: [if (last < s.size()) os.write(...)], on
    the pair of [last] and the stream the loop leaves. *)
Definition flushed (s : string) (r : nat * string) : string :=
  if (r.1 <? String.length s)%nat
  then r.2 +:+ substring r.1 (String.length s - r.1) s
  else r.2.

(** [os << EscapedString(s)] *)
Definition write_escaped (os : string) (s : string) : string :=
  flushed s (escaped_loop s s 0 0 os).

(** The replacement table as the specification words it. *)
Definition spec_replacement (c : ascii) : string :=
  if Ascii.eqb c "&" then "&amp;"
  else if Ascii.eqb c "034" then "&quot;"
  else if Ascii.eqb c "'" then "&apos;"
  else if Ascii.eqb c "<" then "&lt;"
  else if Ascii.eqb c ">" then "&gt;"
  else if Ascii.eqb c "010" then String "\" (String "n" EmptyString)
  else if Ascii.eqb c "009" then String "\" (String "t" EmptyString)
  else if Ascii.eqb c "013" then String "\" (String "r" EmptyString)
  else String c EmptyString.

Fixpoint spec_encode (s : string) : string :=
  match s with
  | EmptyString => EmptyString
  | String c rest => spec_replacement c +:+ spec_encode rest
  end.

(** The eight bytes the encoder rewrites. *)
Definition escaped_bytes : list ascii :=
  ["&"; "034"; "'"; "<"; ">"; "010"; "009"; "013"]%char.

Definition safe (s : string) : Prop :=
  forall c, In c (list_ascii_of_string s) -> ~ In c escaped_bytes.

(** The bytes no replacement contains: the escaped ones other than the
    ampersand, which starts every entity. *)
Definition markup_bytes : list ascii :=
  ["034"; "'"; "<"; ">"; "010"; "009"; "013"]%char.

(** [s] holds none of the bytes of [l]. *)
Definition free_of (l : list ascii) (s : string) : Prop :=
  forall c, In c (list_ascii_of_string s) -> ~ In c l.

End TextEncoder.

(** ** The glib functions the program calls

    glib is an external library. The definitions below follow its reference
    manual and [gutf8.c] / [gvariant.c]: the lead-byte skip table, the
    forward walk of [g_utf8_offset_to_pointer], the type-checked dictionary
    lookup, and the precondition check at the head of
    [g_variant_get_strv]. *)

Module GLib.

(** A [const char*] into the buffer of a NUL-terminated string is the
    position it points at; position [String.length s] holds the
    terminator. *)
Definition NUL : ascii := "000"%char.

Definition byte_at (s : string) (p : nat) : ascii :=
  match String.get p s with
  | Some c => c
  | None => NUL
  end.

(** [g_utf8_skip]: the length of a sequence, from its lead byte. *)
Definition g_utf8_skip (c : ascii) : nat :=
  let n := nat_of_ascii c in
  if (n <? 192)%nat then 1%nat
  else if (n <? 224)%nat then 2%nat
  else if (n <? 240)%nat then 3%nat
  else if (n <? 248)%nat then 4%nat
  else if (n <? 252)%nat then 5%nat
  else if (n <? 254)%nat then 6%nat
  else 1%nat.

(** [g_utf8_next_char(p)]: [p] advanced by the [g_utf8_skip] entry of the
    byte it points at. *)
Definition g_utf8_next_char (s : string) (p : nat) : nat :=
  (p + g_utf8_skip (byte_at s p))%nat.

(** [g_utf8_strlen(p, -1)]: as long as [p] does not point at the terminator,
    [p = g_utf8_next_char (p); ++len].
    Every step advances by at least one byte, so [String.length s] steps of
    fuel always reach the terminator. The result is a [glong]. *)
Fixpoint strlen_loop (fuel : nat) (s : string) (p : nat) : Z :=
  match fuel with
  | O => 0
  | S fuel' =>
      if Ascii.eqb (byte_at s p) NUL then 0
      else 1 + strlen_loop fuel' s (g_utf8_next_char s p)
  end.

Definition g_utf8_strlen (s : string) : Z :=
  strlen_loop (String.length s) s 0.

(** The bytes of [s] from position [p] on split exactly into sequences as
    the skip table reads them, none of them starting with a NUL byte.
    Every valid UTF-8 string built from a C string is like this from
    position 0. *)
Inductive aligned (s : string) : nat -> Prop :=
  | aligned_end : aligned s (String.length s)
  | aligned_step p :
      (p < String.length s)%nat ->
      Ascii.eqb (byte_at s p) NUL = false ->
      aligned s (g_utf8_next_char s p) ->
      aligned s p.

Definition utf8_aligned (s : string) : Prop := aligned s 0.

(** Every byte of [s] is a sequence of its own for the skip table (plain
    ASCII text is like this), so codepoints and bytes coincide. *)
Definition single_byte (s : string) : Prop :=
  forall c, In c (list_ascii_of_string s) -> g_utf8_skip c = 1%nat.

(** [s] has no embedded NUL byte, as every string built from a C string. *)
Definition nul_free (s : string) : Prop :=
  forall c, In c (list_ascii_of_string s) -> c <> NUL.

(** [g_utf8_offset_to_pointer(str, offset)] for [offset >= 0]:
    [while (offset--) s = g_utf8_next_char (s)]. The backward walk glib does
    for a negative offset is never requested by this program (every offset
    it passes is a count between 0 and the length of a string), and is
    left as the identity. *)
Definition g_utf8_offset_to_pointer (s : string) (p : nat) (offset : Z) : nat :=
  if (0 <? offset)%Z then Nat.iter (Z.to_nat offset) (g_utf8_next_char s) p
  else p.

(** [std::string_view{begin, end}] over the buffer of [s]. *)
Definition string_view (s : string) (begin end_ : nat) : string :=
  substring begin (end_ - begin) s.

(** The value types that occur in an MPRIS metadata dictionary. *)
Inductive GVariantType : Type :=
  | G_VARIANT_TYPE_UINT64
  | G_VARIANT_TYPE_INT64
  | G_VARIANT_TYPE_STRING
  | G_VARIANT_TYPE_OBJECT_PATH
  | G_VARIANT_TYPE_STRING_ARRAY.

Inductive GVariant : Type :=
  | VUint64 (n : Z)
  | VInt64 (n : Z)
  | VString (s : string)
  | VObjectPath (s : string)
  | VStringArray (strv : list string).

Definition g_variant_get_type (v : GVariant) : GVariantType :=
  match v with
  | VUint64 _ => G_VARIANT_TYPE_UINT64
  | VInt64 _ => G_VARIANT_TYPE_INT64
  | VString _ => G_VARIANT_TYPE_STRING
  | VObjectPath _ => G_VARIANT_TYPE_OBJECT_PATH
  | VStringArray _ => G_VARIANT_TYPE_STRING_ARRAY
  end.

#[global] Instance GVariantType_eq_dec : EqDecision GVariantType.
Proof. solve_decision. Defined.

(** [g_variant_lookup_value(dictionary, key, expected_type)]: [NULL] when the
    key is absent or its value has another type. *)
Definition g_variant_lookup_value
    (dictionary : gmap string GVariant) (key : string)
    (expected_type : GVariantType) : option GVariant :=
  match dictionary !! key with
  | Some v =>
      if decide (g_variant_get_type v = expected_type) then Some v else None
  | None => None
  end.

(** What a glib call leaves besides its result: the [GLib-CRITICAL]
    messages of failed precondition checks ([g_return_val_if_fail]). *)
Definition Criticals : Type := list string.

(** [g_variant_get_string(value, NULL)]. *)
Definition g_variant_get_string (value : GVariant) : string :=
  match value with
  | VString s | VObjectPath s => s
  | _ => EmptyString
  end.

(** [g_variant_get_uint64(value)]. *)
Definition g_variant_get_uint64 (value : GVariant) : Z :=
  match value with
  | VUint64 n => n
  | _ => 0
  end.

(** [g_variant_get_strv(value, &length)] starts with
    [TYPE_CHECK (value, G_VARIANT_TYPE_STRING_ARRAY, NULL)]: on a value that
    is [NULL] or not a string array the check fails, a critical is logged,
    [NULL] is returned and [*length] is not written. The result is the
    array (when there is one) with the logged criticals. *)
Definition g_variant_get_strv (value : option GVariant)
  : option (list string) * Criticals :=
  match value with
  | Some (VStringArray strv) => (Some strv, [])
  | _ =>
      (None,
       ["g_variant_get_strv: assertion 'g_variant_is_of_type (value, G_VARIANT_TYPE_STRING_ARRAY)' failed"])
  end.

End GLib.

(** ** Metadata *)

Module Meta.
Import GLib.

Record Metadata : Type := {
  length : Z;
  trackid : string;
  title : string;
  album : string;
  artist : string;
  art_url : string;
  url : string
}.

(** A default-initialised [Metadata]. *)
Definition empty_metadata : Metadata :=
  {| length := 0; trackid := EmptyString; title := EmptyString;
     album := EmptyString; artist := EmptyString; art_url := EmptyString;
     url := EmptyString |}.

Definition metadata_get_track_id (metadata : gmap string GVariant) : string :=
  let track_id_variant :=
    match g_variant_lookup_value metadata "mpris:trackid"
            G_VARIANT_TYPE_OBJECT_PATH with
    | None => g_variant_lookup_value metadata "mpris:trackid"
                G_VARIANT_TYPE_STRING
    | Some v => Some v
    end in
  match track_id_variant with
  | Some v => g_variant_get_string v
  | None => EmptyString
  end.

Definition metadata_get_u64_value
    (metadata : gmap string GVariant) (key : string) : Z :=
  match g_variant_lookup_value metadata key G_VARIANT_TYPE_UINT64 with
  | None => 0
  | Some variant => g_variant_get_uint64 variant
  end.

Definition metadata_get_str_value
    (metadata : gmap string GVariant) (key : string) : string :=
  match g_variant_lookup_value metadata key G_VARIANT_TYPE_STRING with
  | None => EmptyString
  | Some variant => g_variant_get_string variant
  end.

(** The [for (gsize i = 0; i < prop_count; i++)] loop of
    [metadata_get_str_array_value]; [todo] counts the iterations left. *)
Fixpoint join_loop (prop_strv : list string) (prop_count : nat)
    (todo i : nat) (result : string) : string :=
  match todo with
  | O => result
  | S todo' =>
      let result1 := result +:+ default EmptyString (prop_strv !! i) in
      let result2 :=
        if negb (i =? prop_count - 1)%nat then result1 +:+ ", " else result1 in
      join_loop prop_strv prop_count todo' (S i) result2
  end.

(** [metadata_get_str_array_value]: the looked-up variant goes to
    [g_variant_get_strv] without a null test; [prop_count] keeps its
    initial 0 when glib does not write it. *)
Definition metadata_get_str_array_value
    (metadata : gmap string GVariant) (key : string) : string * Criticals :=
  let variant := g_variant_lookup_value metadata key G_VARIANT_TYPE_STRING_ARRAY in
  let '(prop_strv, criticals) := g_variant_get_strv variant in
  let prop_count := match prop_strv with Some l => List.length l | None => 0%nat end in
  (join_loop (default [] prop_strv) prop_count prop_count 0 EmptyString,
   criticals).

Record MetadataChanges : Type := {
  ch_length : bool;
  ch_trackid : bool;
  ch_title : bool;
  ch_album : bool;
  ch_artist : bool;
  ch_artUrl : bool;
  ch_url : bool
}.

(** [MetadataChanges::none] *)
Definition none (c : MetadataChanges) : bool :=
  negb (ch_length c || ch_trackid c || ch_title c || ch_artist c
        || ch_artUrl c || ch_url c).

(** [Metadata::chnages] *)
Definition chnages (self other : Metadata) : MetadataChanges :=
  {| ch_length := negb (Z.eqb (length other) (length self));
     ch_trackid := negb (String.eqb (trackid other) (trackid self));
     ch_title := negb (String.eqb (title other) (title self));
     ch_album := negb (String.eqb (album other) (album self));
     ch_artist := negb (String.eqb (artist other) (artist self));
     ch_artUrl := negb (String.eqb (art_url other) (art_url self));
     ch_url := negb (String.eqb (url other) (url self)) |}.

Definition parse_metadata (variant : gmap string GVariant)
  : Metadata * Criticals :=
  let '(artist_value, criticals) :=
    metadata_get_str_array_value variant "xesam:artist" in
  ({| length := metadata_get_u64_value variant "mpris:length";
      trackid := metadata_get_track_id variant;
      title := metadata_get_str_value variant "xesam:title";
      album := metadata_get_str_value variant "xesam:album";
      artist := artist_value;
      art_url := metadata_get_str_value variant "mpris:artUrl";
      url := metadata_get_str_value variant "xesam:url" |},
   criticals).

End Meta.

(** ** Players and the player registry *)

Module Registry.
Import Meta.

Local Open Scope Z_scope.

(** The enumerations of [playerctl.h]. *)
Inductive PlayerctlSource : Type :=
  | PLAYERCTL_SOURCE_NONE
  | PLAYERCTL_SOURCE_DBUS_SESSION
  | PLAYERCTL_SOURCE_DBUS_SYSTEM.

Inductive PlayerctlPlaybackStatus : Type :=
  | PLAYERCTL_PLAYBACK_STATUS_PLAYING
  | PLAYERCTL_PLAYBACK_STATUS_PAUSED
  | PLAYERCTL_PLAYBACK_STATUS_STOPPED.

Inductive PlayerctlLoopStatus : Type :=
  | PLAYERCTL_LOOP_STATUS_NONE
  | PLAYERCTL_LOOP_STATUS_TRACK
  | PLAYERCTL_LOOP_STATUS_PLAYLIST.

Definition source_eqb (a b : PlayerctlSource) : bool :=
  match a, b with
  | PLAYERCTL_SOURCE_NONE, PLAYERCTL_SOURCE_NONE
  | PLAYERCTL_SOURCE_DBUS_SESSION, PLAYERCTL_SOURCE_DBUS_SESSION
  | PLAYERCTL_SOURCE_DBUS_SYSTEM, PLAYERCTL_SOURCE_DBUS_SYSTEM => true
  | _, _ => false
  end.

Definition playback_status_eqb (a b : PlayerctlPlaybackStatus) : bool :=
  match a, b with
  | PLAYERCTL_PLAYBACK_STATUS_PLAYING, PLAYERCTL_PLAYBACK_STATUS_PLAYING
  | PLAYERCTL_PLAYBACK_STATUS_PAUSED, PLAYERCTL_PLAYBACK_STATUS_PAUSED
  | PLAYERCTL_PLAYBACK_STATUS_STOPPED, PLAYERCTL_PLAYBACK_STATUS_STOPPED => true
  | _, _ => false
  end.

(** [PlayerctlPlayerName], as the provider hands it over. *)
Record PlayerctlPlayerName : Type := {
  pn_name : string;
  pn_instance : string;
  pn_source : PlayerctlSource
}.

Record PlayerUID : Type := {
  name : string;
  source : PlayerctlSource
}.

(** [PlayerUID::operator==] *)
Definition uid_eqb (a other : PlayerUID) : bool :=
  source_eqb (source a) (source other) && String.eqb (name a) (name other).

(** [Player::State]. The [volume] (a double) and [seeked_to] fields are
    never read by the registry or the engine and are left out. *)
Record State : Type := {
  metadata : Metadata;
  loop_status : PlayerctlLoopStatus;
  playback_status : PlayerctlPlaybackStatus;
  shuffle : bool
}.

Record Player : Type := {
  uid : PlayerUID;
  state : State;
  is_selected : bool
}.

(** What the registry does to the outside: calls into its
    [ManagedPlayerHandler] and lines it prints itself. *)
Inductive Effect : Type :=
  | call_on_select (player : Player)
  | call_on_empty
  | call_display_print (v : string).

(** How a member function ends. [OutOfBounds] is an access
    [managed_players[i]] with [i] not below the size (undefined
    behaviour in the program). *)
Inductive Outcome (A : Type) : Type :=
  | Returns (a : A)
  | Throws (what : string)
  | OutOfBounds.
Arguments Returns {A} a.
Arguments Throws {A} what.
Arguments OutOfBounds {A}.

Record PlayerManager : Type := {
  managed_players : list Player;
  selected_idx : Z
}.

(** [size_t] arithmetic is modulo [2^64]. *)
Definition size_t (z : Z) : Z := z mod 2 ^ 64.

(** [static size_t constexpr NON_IDX = -1] *)
Definition NON_IDX : Z := size_t (-1).

(** The registry of a freshly constructed [PlayerManager], before any
    name is added. *)
Definition initial : PlayerManager :=
  {| managed_players := []; selected_idx := NON_IDX |}.

(** [managed_players.size()] *)
Definition size (players : list Player) : Z := Z.of_nat (List.length players).

(** [Player::select], on the player a pointer designates. *)
Definition select (p : Player) : Player :=
  {| uid := uid p; state := state p; is_selected := true |}.

(** [managed_players[i]] for a [size_t] index [i]. *)
Definition at_index (i : Z) (players : list Player) : option Player :=
  if 0 <=? i then players !! Z.to_nat i else None.

(** [managed_players[i]->select()]: sets the flag of the element in place
    and calls the handler's [on_select] with it. *)
Definition select_at (i : Z) (players : list Player)
  : Outcome (list Player * list Effect) :=
  match at_index i players with
  | Some p =>
      Returns (<[Z.to_nat i := select p]> players, [call_on_select (select p)])
  | None => OutOfBounds
  end.

(** [PlayerManager::selected_player] *)
Definition selected_player (m : PlayerManager) : Outcome (option Player) :=
  if selected_idx m =? NON_IDX then Returns None
  else match at_index (selected_idx m) (managed_players m) with
       | Some p => Returns (Some p)
       | None => OutOfBounds
       end.

(** What [new Player{name, uid, handler}] finds on the bus: playerctl either
    fails to resolve the name ([handle_gfunc] throws) or the player's
    current properties seed its state. *)
Inductive Resolved : Type :=
  | Unresolved (message : string)
  | Resolves (st : State).

(** [PlayerUID player_uid {name->instance, name->source}] *)
Definition player_uid_of (pname : PlayerctlPlayerName) : PlayerUID :=
  {| name := pn_instance pname; source := pn_source pname |}.

(** [PlayerManager::add_player_by_name] *)
Definition add_player_by_name (pname : PlayerctlPlayerName) (r : Resolved)
    (m : PlayerManager) : Outcome (PlayerManager * list Effect) :=
  let player_uid := player_uid_of pname in
  let exists_ :=
    existsb (fun p => uid_eqb (uid p) player_uid) (managed_players m) in
  if exists_ then Returns (m, [call_display_print "Should not exist!"])
  else
    match r with
    | Unresolved message => Throws message
    | Resolves st =>
        let player := {| uid := player_uid; state := st; is_selected := false |} in
        let players := (managed_players m ++ [player])%list in
        if selected_idx m =? NON_IDX then
          match select_at (size players - 1) players with
          | Returns (players', effects) =>
              Returns ({| managed_players := players';
                          selected_idx := size_t (size players' - 1) |},
                       effects)
          | Throws what => Throws what
          | OutOfBounds => OutOfBounds
          end
        else
          Returns ({| managed_players := players;
                      selected_idx := selected_idx m |}, [])
    end.

(** [PlayerManager::on_name_appeared] *)
Definition on_name_appeared := add_player_by_name.

(** The entry [std::ranges::find_if] finds for a name: its position and
    the player there. *)
Definition find_entry (pname : PlayerctlPlayerName) (m : PlayerManager)
  : option (nat * Player) :=
  list_find (fun p => uid_eqb (uid p) (player_uid_of pname) = true)
    (managed_players m).

(** [PlayerManager::on_name_vanished] *)
Definition on_name_vanished (pname : PlayerctlPlayerName) (m : PlayerManager)
  : Outcome (PlayerManager * list Effect) :=
  match find_entry pname m with
  | None => Returns (m, [call_display_print "Should exist!"])
  | Some (entry, p) =>
      let was_selected := is_selected p in
      let players := delete entry (managed_players m) in
      let select_idx (idx : Z) :=
        match select_at idx players with
        | Returns (players', effects) =>
            Returns ({| managed_players := players'; selected_idx := idx |},
                     effects)
        | Throws what => Throws what
        | OutOfBounds => OutOfBounds
        end in
      if was_selected then
        if size players =? 0 then
          Returns ({| managed_players := players;
                      selected_idx := size_t (-1) |}, [call_on_empty])
        else if selected_idx m >=? size players then select_idx 0
        else select_idx (selected_idx m)
      else select_idx (selected_idx m)
  end.

(** The registry states the program can be in: the initial one, and what
    [add_player_by_name] and [on_name_vanished] return from such a state. *)
Inductive reachable : PlayerManager -> Prop :=
  | reachable_initial : reachable initial
  | reachable_add pname r m m' effects :
      reachable m ->
      add_player_by_name pname r m = Returns (m', effects) ->
      reachable m'
  | reachable_vanished pname m m' effects :
      reachable m ->
      on_name_vanished pname m = Returns (m', effects) ->
      reachable m'.

(** The number of players whose [is_selected] flag is set. *)
Definition selected_count (m : PlayerManager) : nat :=
  List.length (filter (fun p => is_selected p = true) (managed_players m)).

(** The selection invariant of the specification. *)
Definition selection_invariant (m : PlayerManager) : Prop :=
  (managed_players m <> [] -> selected_count m = 1%nat) /\
  (managed_players m = [] -> selected_count m = 0%nat).

(** What the transitions maintain: the first player, and only it, is
    selected, and the index points at it. *)
Definition head_selected (m : PlayerManager) : Prop :=
  match managed_players m with
  | [] => selected_idx m = NON_IDX
  | p :: rest =>
      selected_idx m = 0 /\ is_selected p = true /\
      Forall (fun q => is_selected q = false) rest
  end.

(** No two managed players share a [PlayerUID]. *)
Definition distinct_uids (m : PlayerManager) : Prop :=
  NoDup (uid <$> managed_players m).

(** The name's [PlayerUID] is not among the managed players. *)
Definition fresh_name (pname : PlayerctlPlayerName) (m : PlayerManager) : Prop :=
  forall p, p ∈ managed_players m -> uid p <> player_uid_of pname.

End Registry.

(** ** The [std::filesystem] calls of the cover-art routine

    The file system is a finite map from paths to what is there. Any call
    may fail with an operating-system error, in which case the throwing
    overloads the program uses raise [fs::filesystem_error]; which calls
    fail, and how far [remove_all] got before it failed, is an input of
    the run ([Faults]). The paths are those the program passes:
    [cache_path], built once from the C string [getenv] returns, and the
    link target, which the system call reads as a C string. *)

Module Fs.

(** What a path holds. [RegularFile] stands for every entry that is
    neither a link nor a directory (the routine treats them alike). *)
Inductive Node : Type :=
  | Symlink (target : string)
  | RegularFile
  | Directory.

Inductive file_type : Type :=
  | not_found
  | regular
  | directory
  | symlink.

Definition file_type_eqb (a b : file_type) : bool :=
  match a, b with
  | not_found, not_found | regular, regular
  | directory, directory | symlink, symlink => true
  | _, _ => false
  end.

(** The errors of this run that depend on the environment (permissions,
    a missing parent directory, a target longer than the system allows,
    an input/output error, ...); an error that a call has on every system,
    as [create_symlink] on an empty target, is part of the call below.
    [remove_all] deletes the content of a directory entry by entry before
    the directory itself, so it can fail part-way:
    [remove_all_fails = Some done] says that it throws, after the subtrees
    at the paths [done] (those of them that lie beneath its argument) have
    been deleted. *)
Record Faults : Type := {
  symlink_status_fails : bool;
  remove_all_fails : option (list string);
  create_symlink_fails : bool
}.

Definition no_faults : Faults :=
  {| symlink_status_fails := false;
     remove_all_fails := None;
     create_symlink_fails := false |}.

(** A computation on the file system that returns or throws. *)
Definition M (A : Type) : Type :=
  gmap string Node -> (string + A) * gmap string Node.

Definition ret {A} (a : A) : M A := fun fs => (inr a, fs).

Definition throw {A} (what : string) : M A := fun fs => (inl what, fs).

Definition bind {A B} (c : M A) (k : A -> M B) : M B :=
  fun fs =>
    match c fs with
    | (inl what, fs') => (inl what, fs')
    | (inr a, fs') => k a fs'
    end.

#[global] Instance fs_ret : MRet M := @ret.
#[global] Instance fs_bind : MBind M := fun A B k c => bind c k.

(** [path::c_str()] as a system call reads it: the bytes before the first
    NUL byte. *)
Fixpoint c_str (s : string) : string :=
  match s with
  | EmptyString => EmptyString
  | String c rest =>
      if Ascii.eqb c "000"%char then EmptyString else String c (c_str rest)
  end.

(** [fs::symlink_status(p).type()]: the entry itself, links not followed. *)
Definition symlink_status (faults : Faults) (p : string) : M file_type :=
  fun fs =>
    if symlink_status_fails faults
    then (inl "filesystem error: symlink_status", fs)
    else (inr match fs !! p with
              | None => not_found
              | Some (Symlink _) => symlink
              | Some RegularFile => regular
              | Some Directory => directory
              end, fs).

(** [q] lies beneath the directory [p]. *)
Definition beneath (p q : string) : bool := String.prefix (p +:+ "/") q.

(** [q] is [r] or lies beneath it. *)
Definition within (r q : string) : bool := String.eqb r q || beneath r q.

(** The file system without [p] and all that lies beneath it. *)
Definition removed (p : string) (fs : gmap string Node) : gmap string Node :=
  filter (fun kv => beneath p kv.1 = false) (delete p fs).

(** The file system when the walk through the directory [p] stopped with
    the subtrees at [done] deleted: of the entries beneath [p], those
    within one of [done] are gone; [p] itself is still there. Every state
    a failing [remove_all] can leave is of this form (the form also
    covers subtrees no single walk would have deleted together). *)
Definition partly_removed (p : string) (done : list string)
    (fs : gmap string Node) : gmap string Node :=
  filter (fun kv =>
            beneath p kv.1 && existsb (fun r => within r kv.1) done = false)
    fs.

(** [fs::remove_all(p)]: removes [p] and, for a directory, all it holds;
    a link is removed, not followed. When it fails on an entry that is
    not a directory, nothing has been removed; when it fails on a
    directory, some of what the directory holds may be gone already. *)
Definition remove_all (faults : Faults) (p : string) : M unit :=
  fun fs =>
    match remove_all_fails faults with
    | None => (inr tt, removed p fs)
    | Some done =>
        (inl "filesystem error: cannot remove all",
         match fs !! p with
         | Some Directory => partly_removed p done fs
         | _ => fs
         end)
    end.

(** [fs::create_symlink(target, link)], that is [symlink(2)] on the two C
    strings: fails with [ENOENT] when [target] is the empty string and
    with [EEXIST] when [link] exists. *)
Definition create_symlink (faults : Faults) (target link : string) : M unit :=
  fun fs =>
    if create_symlink_fails faults
    then (inl "filesystem error: cannot create symlink", fs)
    else match c_str target with
         | EmptyString =>
             (inl "filesystem error: cannot create symlink: No such file or directory",
              fs)
         | String c rest =>
             match fs !! link with
             | Some _ =>
                 (inl "filesystem error: cannot create symlink: File exists",
                  fs)
             | None => (inr tt, <[link := Symlink (String c rest)]> fs)
             end
         end.

End Fs.

(** ** The marquee engine ([OutputGenerator]) *)

Module Engine.
Import TextEncoder GLib Meta Registry.

Local Open Scope Z_scope.

Record LastSource : Type := {
  ls_title : string;
  ls_artist : string;
  ls_art_url : string
}.

Record OutputGenerator : Type := {
  to_display : string;
  to_display_utf8_len : Z;
  needs_scrolling : bool;
  display_offset : Z;
  is_playing : bool;
  last_src : LastSource
}.

(** The member initialisers of [OutputGenerator]. *)
Definition fresh : OutputGenerator :=
  {| to_display := EmptyString; to_display_utf8_len := 0;
     needs_scrolling := false; display_offset := 0; is_playing := false;
     last_src := {| ls_title := EmptyString; ls_artist := EmptyString;
                    ls_art_url := EmptyString |} |}.

Definition set_display_offset (v : Z) (g : OutputGenerator) : OutputGenerator :=
  {| to_display := to_display g; to_display_utf8_len := to_display_utf8_len g;
     needs_scrolling := needs_scrolling g; display_offset := v;
     is_playing := is_playing g; last_src := last_src g |}.

Definition set_is_playing (v : bool) (g : OutputGenerator) : OutputGenerator :=
  {| to_display := to_display g; to_display_utf8_len := to_display_utf8_len g;
     needs_scrolling := needs_scrolling g; display_offset := display_offset g;
     is_playing := v; last_src := last_src g |}.

Definition set_needs_scrolling (v : bool) (g : OutputGenerator)
  : OutputGenerator :=
  {| to_display := to_display g; to_display_utf8_len := to_display_utf8_len g;
     needs_scrolling := v; display_offset := display_offset g;
     is_playing := is_playing g; last_src := last_src g |}.

Definition set_last_src (v : LastSource) (g : OutputGenerator)
  : OutputGenerator :=
  {| to_display := to_display g; to_display_utf8_len := to_display_utf8_len g;
     needs_scrolling := needs_scrolling g; display_offset := display_offset g;
     is_playing := is_playing g; last_src := v |}.

(** [static constexpr size_t max_width = 50] *)
Definition max_width : Z := 50.

(** [constexpr char seperator[] = " ~ "] *)
Definition seperator : string := " ~ ".

Definition dquote : string := String "034" EmptyString.
Definition newline : string := String "010" EmptyString.

(** What [display_print(v)] writes to [std::cout]. *)
Definition display_print_line (v : string) : string :=
  "{" +:+ dquote +:+ "text" +:+ dquote +:+ ":" +:+ dquote +:+ v
  +:+ dquote +:+ "}" +:+ newline.

(** [OutputGenerator::update_to_display]. The sum is formed in [glong];
    each summand is at most the byte length of a string held in memory
    (lemma [g_utf8_strlen_le]), so it neither overflows nor wraps when
    stored in the [size_t] field. *)
Definition update_to_display (title artist : string) (g : OutputGenerator)
  : OutputGenerator :=
  let has_seperator :=
    negb (string_empty title) && negb (string_empty artist) in
  let len :=
    g_utf8_strlen title + (if has_seperator then 3 else 0)
    + g_utf8_strlen artist in
  if len <=? max_width then
    {| to_display :=
         encode title +:+ (if has_seperator then " ~ " else EmptyString)
         +:+ encode artist;
       to_display_utf8_len := len;
       needs_scrolling := false;
       display_offset := display_offset g;
       is_playing := is_playing g;
       last_src := last_src g |}
  else
    {| to_display :=
         title +:+ (if has_seperator then " ~ " else EmptyString) +:+ artist;
       to_display_utf8_len := len;
       needs_scrolling := true;
       display_offset := display_offset g;
       is_playing := is_playing g;
       last_src := last_src g |}.

(** The length [update_to_display] computes for a title and an artist. *)
Definition combined_length (title artist : string) : Z :=
  g_utf8_strlen title
  + (if negb (string_empty title) && negb (string_empty artist) then 3 else 0)
  + g_utf8_strlen artist.

(** The separator [update_to_display] puts between them. *)
Definition separator_for (title artist : string) : string :=
  if negb (string_empty title) && negb (string_empty artist)
  then " ~ " else EmptyString.

(** [OutputGenerator::utf8_substr] *)
Definition utf8_substr (str : string) (start length : Z) : string :=
  let begin := g_utf8_offset_to_pointer str 0 start in
  let end_ := g_utf8_offset_to_pointer str begin length in
  string_view str begin end_.

(** The middle of [OutputGenerator::display]: what goes between the opening
    and the closing of the line, written after [os], and the engine after
    it. The subtractions are on [size_t] and are each guarded by the
    comparison before them. *)
Definition display_body (g : OutputGenerator) (os : string)
  : OutputGenerator * string :=
  if negb (needs_scrolling g) then (g, os +:+ to_display g)
  else if display_offset g <? to_display_utf8_len g then
    let remaining := to_display_utf8_len g - display_offset g in
    if remaining >=? max_width then
      (g, write_escaped os
            (utf8_substr (to_display g) (display_offset g) max_width))
    else
      let os1 :=
        write_escaped os
          (utf8_substr (to_display g) (display_offset g) remaining) in
      let left_over := max_width - remaining in
      if left_over <=? 3 then
        (g, write_escaped os1 (substring 0 (Z.to_nat left_over) seperator))
      else
        let end_ := g_utf8_offset_to_pointer (to_display g) 0 (left_over - 3) in
        (g, write_escaped (os1 +:+ " ~ ") (string_view (to_display g) 0 end_))
  else
    let sperator_offset := display_offset g - to_display_utf8_len g in
    if sperator_offset >? 2 then
      let end_ := g_utf8_offset_to_pointer (to_display g) 0 max_width in
      (set_display_offset 0 g,
       write_escaped os (string_view (to_display g) 0 end_))
    else
      let seperator_size := 3 - sperator_offset in
      let end_ :=
        g_utf8_offset_to_pointer (to_display g) 0 (max_width - seperator_size) in
      (g, write_escaped
            (os +:+ substring (Z.to_nat sperator_offset)
                      (Z.to_nat seperator_size) seperator)
            (string_view (to_display g) 0 end_)).

(** [OutputGenerator::display]: the engine afterwards and the line written
    to [std::cout]. *)
Definition display (g : OutputGenerator) : OutputGenerator * string :=
  let os :=
    "{" +:+ dquote +:+ "text" +:+ dquote +:+ ":" +:+ dquote
    +:+ (if negb (is_playing g) then "<i>" else EmptyString) in
  let '(g1, os1) := display_body g os in
  (g1, os1 +:+ (if negb (is_playing g) then "</i>" else EmptyString)
       +:+ dquote +:+ "}" +:+ newline).

(** The line [display] writes around an already escaped window: in
    italics unless the player is playing. *)
Definition window_line (playing : bool) (window : string) : string :=
  display_print_line
    ((if negb playing then "<i>" else EmptyString) +:+ window
     +:+ (if negb playing then "</i>" else EmptyString)).

(** [OutputGenerator::scoll]: the engine afterwards and the lines written. *)
Definition scoll (g : OutputGenerator) : OutputGenerator * list string :=
  if negb (needs_scrolling g) then (g, [])
  else
    let '(g1, line) :=
      display (set_display_offset (size_t (display_offset g + 1)) g) in
    (g1, [line]).

(** The engine after [n] timer ticks ([sroll_callback]) in a row. *)
Definition after_ticks (n : nat) (g : OutputGenerator) : OutputGenerator :=
  Nat.iter n (fun g' => (scoll g').1) g.

(** What the [n]-th tick from [g] writes ([n] counted from 1). *)
Definition tick_output (n : nat) (g : OutputGenerator) : list string :=
  (scoll (after_ticks (n - 1) g)).2.

(** The playing flag a player's state gives. *)
Definition playing_flag (player : Player) : bool :=
  playback_status_eqb (playback_status (state player))
    PLAYERCTL_PLAYBACK_STATUS_PLAYING.

Section CoverArt.

(** [cache_path], fixed at program start from [$HOME]. *)
Variable cache_path : string.

(** The [try] block of [update_cover_art]; [pkill_ret] is what
    [std::system] returns. The result is what the block writes to
    [std::cerr]. *)
Definition cover_art_body (faults : Fs.Faults) (pkill_ret : Z)
    (art_url : string) : Fs.M (list string) :=
  ty ← Fs.symlink_status faults cache_path;
  (if negb (Fs.file_type_eqb ty Fs.not_found)
   then Fs.remove_all faults cache_path else mret tt) ;;
  (if String.prefix "file://" art_url
   then Fs.create_symlink faults
          (substring 7 (String.length art_url - 7) art_url) cache_path
   else mret tt) ;;
  mret (if pkill_ret =? 0 then [] else ["Failed to send Waybar signal"]).

(** [OutputGenerator::update_cover_art]: the engine, the file system and
    the lines on [std::cerr] afterwards. The [catch] clause turns a thrown
    error into a log line. *)
Definition update_cover_art (faults : Fs.Faults) (pkill_ret : Z)
    (art_url : string) (g : OutputGenerator) (fs : gmap string Fs.Node)
  : OutputGenerator * gmap string Fs.Node * list string :=
  let g1 :=
    set_last_src {| ls_title := ls_title (last_src g);
                    ls_artist := ls_artist (last_src g);
                    ls_art_url := art_url |} g in
  match cover_art_body faults pkill_ret art_url fs with
  | (inr cerr, fs') => (g1, fs', cerr)
  | (inl what, fs') => (g1, fs', ["Error updating cover art: " +:+ what])
  end.

(** What a call into the engine leaves: the engine, the file system, the
    lines written to [std::cout] and those written to [std::cerr]. *)
Record Run : Type := {
  run_engine : OutputGenerator;
  run_files : gmap string Fs.Node;
  run_cout : list string;
  run_cerr : list string
}.

(** [OutputGenerator::on_update_seleceted] *)
Definition on_update_seleceted (faults : Fs.Faults) (pkill_ret : Z)
    (player : Player) (g : OutputGenerator) (fs : gmap string Fs.Node) : Run :=
  let title := Meta.title (metadata (state player)) in
  let artist := Meta.artist (metadata (state player)) in
  let art_url := Meta.art_url (metadata (state player)) in
  let new_is_playing :=
    playback_status_eqb (playback_status (state player))
      PLAYERCTL_PLAYBACK_STATUS_PLAYING in
  let '(g1, fs1, cerr) :=
    if negb (String.eqb art_url (ls_art_url (last_src g)))
    then update_cover_art faults pkill_ret art_url g fs
    else (g, fs, []) in
  if String.eqb (ls_title (last_src g1)) title
     && String.eqb (ls_artist (last_src g1)) artist then
    if negb (Bool.eqb (is_playing g1) new_is_playing) then
      let '(g2, line) := display (set_is_playing new_is_playing g1) in
      {| run_engine := g2; run_files := fs1;
         run_cout := [line]; run_cerr := cerr |}
    else
      {| run_engine := g1; run_files := fs1;
         run_cout := []; run_cerr := cerr |}
  else
    let g2 := set_display_offset 0 g1 in
    let g3 :=
      set_last_src {| ls_title := title; ls_artist := artist;
                      ls_art_url := ls_art_url (last_src g2) |} g2 in
    let g4 := update_to_display title artist g3 in
    let '(g5, line) := display (set_is_playing new_is_playing g4) in
    {| run_engine := g5; run_files := fs1;
       run_cout := [line]; run_cerr := cerr |}.

(** [OutputGenerator::on_select] *)
Definition on_select := on_update_seleceted.

(** [OutputGenerator::on_state] *)
Definition on_state (faults : Fs.Faults) (pkill_ret : Z)
    (player : Player) (g : OutputGenerator) (fs : gmap string Fs.Node) : Run :=
  if negb (Registry.is_selected player)
  then {| run_engine := g; run_files := fs; run_cout := []; run_cerr := [] |}
  else on_update_seleceted faults pkill_ret player g fs.

(** [OutputGenerator::on_empty] *)
Definition on_empty (g : OutputGenerator) (fs : gmap string Fs.Node) : Run :=
  {| run_engine := set_needs_scrolling false g; run_files := fs;
     run_cout := [display_print_line EmptyString]; run_cerr := [] |}.

(** One callback into the engine: a select or state notification for the
    selected player, a timer tick, or the empty notification. The step
    relates the engine before to the engine after and the lines written
    to [std::cout]. *)
Inductive engine_step : OutputGenerator -> OutputGenerator -> list string -> Prop :=
  | step_update faults pkill_ret player g fs :
      engine_step g
        (run_engine (on_update_seleceted faults pkill_ret player g fs))
        (run_cout (on_update_seleceted faults pkill_ret player g fs))
  | step_tick g :
      engine_step g (scoll g).1 (scoll g).2
  | step_empty g fs :
      engine_step g (run_engine (on_empty g fs)) (run_cout (on_empty g fs)).

(** The engines the program can be in. *)
Inductive engine_reachable : OutputGenerator -> Prop :=
  | engine_fresh : engine_reachable fresh
  | engine_next g g' lines :
      engine_reachable g -> engine_step g g' lines -> engine_reachable g'.

End CoverArt.

(** The 50 bytes from position [k] of the raw text followed by the
    separator and the raw text again: the window of a marquee that has
    scrolled [k] places. *)
Definition marquee_window (raw : string) (k : nat) : string :=
  substring k (Z.to_nat max_width) (raw +:+ seperator +:+ raw).

(** The text the engine holds belongs to the title and artist of its last
    render, with their combined length; and while it scrolls, that length
    exceeds the width and the scroll offset lies within one cycle (the
    latter as long as the cycle fits a [size_t]). *)
Definition engine_invariant (g : OutputGenerator) : Prop :=
  let title := ls_title (last_src g) in
  let artist := ls_artist (last_src g) in
  to_display_utf8_len g = combined_length title artist /\
  to_display g
  = (if combined_length title artist <=? max_width
     then TextEncoder.encode title +:+ separator_for title artist
          +:+ TextEncoder.encode artist
     else title +:+ separator_for title artist +:+ artist) /\
  (needs_scrolling g = true ->
   max_width < to_display_utf8_len g /\
   (to_display_utf8_len g + 3 < 2 ^ 64 ->
    0 <= display_offset g <= to_display_utf8_len g + 2)).

End Engine.

(** ** Process shutdown *)

Module Lifecycle.

(** The two globals [exit_handler] works on: [main_loop] (null before
    [g_main_loop_new]; otherwise whether the loop is still to run) and
    [handled_exit]. *)
Record Globals : Type := {
  main_loop : option bool;
  handled_exit : bool
}.

(** [exit_handler]: the globals afterwards and the lines written to
    [std::cout]. [g_main_loop_quit] stops the loop. *)
Definition exit_handler (gl : Globals) : Globals * list string :=
  if handled_exit gl then (gl, [])
  else
    ({| main_loop := match main_loop gl with
                     | Some _ => Some false
                     | None => None
                     end;
        handled_exit := true |},
     [Engine.display_print_line "Exiting cleanly..."]).

End Lifecycle.

(** ** The program as a whole: the callbacks of the main loop

    The handler the registry calls is the [OutputGenerator] that owns it
    ([manager(this)]); the signal handlers of a [Player] write into its
    [state]; the timer calls [scoll]. A callback runs to its end before
    the next one starts. *)

Module App.
Import Meta Registry Engine.

Record App : Type := {
  manager : PlayerManager;
  generator : OutputGenerator;
  files : gmap string Fs.Node
}.

(** The program once [OutputGenerator] is constructed, before any name
    is added. The names already on the bus at that time go through
    [add_player_by_name] in the constructor of [PlayerManager], like a
    [name_appeared] callback each. *)
Definition start (fs : gmap string Fs.Node) : App :=
  {| manager := initial; generator := fresh; files := fs |}.

(** The callbacks: the two name signals of the manager, the property
    signals of the player at a position of [managed_players] (the one for
    the volume, a double, is left out with the field), its
    [g-properties-changed] signal, and the 100 ms timeout. What glib logs
    while the metadata is parsed is not tracked here. *)
Inductive Event : Type :=
  | name_appeared (pname : PlayerctlPlayerName) (r : Resolved)
  | name_vanished (pname : PlayerctlPlayerName)
  | metadata_signal (i : nat) (variant : gmap string GLib.GVariant)
  | playback_status_signal (i : nat) (value : PlayerctlPlaybackStatus)
  | loop_status_signal (i : nat) (value : PlayerctlLoopStatus)
  | shuffle_signal (i : nat) (value : bool)
  | properties_changed (i : nat)
  | timeout.

Definition with_state (f : State -> State) (p : Player) : Player :=
  {| uid := uid p; state := f (state p); is_selected := is_selected p |}.

Definition with_players (players : list Player) (a : App) : App :=
  {| manager := {| managed_players := players;
                   selected_idx := selected_idx (manager a) |};
     generator := generator a; files := files a |}.

Section Callbacks.

Variable cache_path : string.

(** What the file system and the bar's signal do during the callback. *)
Variable faults : Fs.Faults.
Variable pkill_ret : Z.

Definition idle (g : OutputGenerator) (fs : gmap string Fs.Node) : Run :=
  {| run_engine := g; run_files := fs; run_cout := []; run_cerr := [] |}.

(** A call of the registry into its handler, after what has run so far. *)
Definition deliver (r : Run) (e : Effect) : Run :=
  let r' :=
    match e with
    | call_on_select player =>
        Engine.on_select cache_path faults pkill_ret player
          (run_engine r) (run_files r)
    | call_on_empty => Engine.on_empty (run_engine r) (run_files r)
    | call_display_print v =>
        {| run_engine := run_engine r; run_files := run_files r;
           run_cout := [display_print_line v]; run_cerr := [] |}
    end in
  {| run_engine := run_engine r'; run_files := run_files r';
     run_cout := (run_cout r ++ run_cout r')%list;
     run_cerr := (run_cerr r ++ run_cerr r')%list |}.

Definition finish (m : PlayerManager) (r : Run)
  : Outcome (App * list string * list string) :=
  Returns ({| manager := m; generator := run_engine r; files := run_files r |},
           run_cout r, run_cerr r).

(** One callback: the program afterwards and what was written to
    [std::cout] and [std::cerr]. *)
Definition step (a : App) (ev : Event)
  : Outcome (App * list string * list string) :=
  match ev with
  | name_appeared pname r =>
      match on_name_appeared pname r (manager a) with
      | Returns (m', effects) =>
          finish m' (fold_left deliver effects (idle (generator a) (files a)))
      | Throws what => Throws what
      | OutOfBounds => OutOfBounds
      end
  | name_vanished pname =>
      match on_name_vanished pname (manager a) with
      | Returns (m', effects) =>
          finish m' (fold_left deliver effects (idle (generator a) (files a)))
      | Throws what => Throws what
      | OutOfBounds => OutOfBounds
      end
  | metadata_signal i variant =>
      Returns (with_players
                 (alter (with_state (fun st =>
                           {| metadata := (parse_metadata variant).1;
                              loop_status := loop_status st;
                              playback_status := playback_status st;
                              shuffle := shuffle st |}))
                    i (managed_players (manager a))) a, [], [])
  | playback_status_signal i value =>
      Returns (with_players
                 (alter (with_state (fun st =>
                           {| metadata := metadata st;
                              loop_status := loop_status st;
                              playback_status := value;
                              shuffle := shuffle st |}))
                    i (managed_players (manager a))) a, [], [])
  | loop_status_signal i value =>
      Returns (with_players
                 (alter (with_state (fun st =>
                           {| metadata := metadata st;
                              loop_status := value;
                              playback_status := playback_status st;
                              shuffle := shuffle st |}))
                    i (managed_players (manager a))) a, [], [])
  | shuffle_signal i value =>
      Returns (with_players
                 (alter (with_state (fun st =>
                           {| metadata := metadata st;
                              loop_status := loop_status st;
                              playback_status := playback_status st;
                              shuffle := value |}))
                    i (managed_players (manager a))) a, [], [])
  | properties_changed i =>
      match managed_players (manager a) !! i with
      | Some player =>
          finish (manager a)
            (Engine.on_state cache_path faults pkill_ret player
               (generator a) (files a))
      | None => Returns (a, [], [])
      end
  | timeout =>
      Returns ({| manager := manager a; generator := (scoll (generator a)).1;
                  files := files a |}, (scoll (generator a)).2, [])
  end.

End Callbacks.

(** The states the program goes through from [start]. *)
Inductive reachable (cache_path : string) : App -> Prop :=
  | reachable_start fs : reachable cache_path (start fs)
  | reachable_step faults pkill_ret a ev a' out err :
      reachable cache_path a ->
      step cache_path faults pkill_ret a ev = Returns (a', out, err) ->
      reachable cache_path a'.

(** The program after a list of callbacks during which the environment
    fails no file-system call ([Fs.no_faults]); nothing if one of them
    throws. *)
Fixpoint run (cache_path : string) (a : App) (evs : list Event) : option App :=
  match evs with
  | [] => Some a
  | ev :: rest =>
      match step cache_path Fs.no_faults 0 a ev with
      | Returns (a', _, _) => run cache_path a' rest
      | _ => None
      end
  end.

(** What holds between the callbacks. *)
Definition between_callbacks (a : App) : Prop :=
  head_selected (manager a) /\
  distinct_uids (manager a) /\
  (managed_players (manager a) = [] -> needs_scrolling (generator a) = false).

End App.

(** ** Concrete inputs used to exercise the theorems *)

Module Samples.
Import Meta Registry Engine.

Definition dbus (instance : string) : PlayerctlPlayerName :=
  {| pn_name := instance; pn_instance := instance;
     pn_source := PLAYERCTL_SOURCE_DBUS_SESSION |}.

Definition track (title artist art_url : string) : Metadata :=
  {| Meta.length := 0; trackid := EmptyString; title := title;
     album := EmptyString; artist := artist; art_url := art_url;
     url := EmptyString |}.

Definition playing (md : Metadata) : State :=
  {| metadata := md; loop_status := PLAYERCTL_LOOP_STATUS_NONE;
     playback_status := PLAYERCTL_PLAYBACK_STATUS_PLAYING; shuffle := false |}.

Definition player (instance : string) (selected : bool) : Player :=
  {| uid := {| name := instance; source := PLAYERCTL_SOURCE_DBUS_SESSION |};
     state := playing (track "Song" "Artist" EmptyString);
     is_selected := selected |}.

(** Fifty, fifty-one and fifty-two bytes of ASCII. *)
Definition text50 : string :=
  "0123456789abcdefghijklmnopqrstuvwxyzABCDEFGHIJKLMN".
Definition text51 : string := text50 +:+ "O".
Definition text52 : string :=
  "0123456789<bcdefghijklmnopqrstuvwxyzABCDEFGHIJKLMNOP".

(** A title and an artist that together exceed the width. *)
Definition long_title : string := "The Quite Long Title Of A Song <Live & Loud>".
Definition long_artist : string := "Some Band".

Definition home_cache : string := "/home/user/.cache/mpris-cover.png".



(** A playing player with a given title and no artist. *)
Definition titled (title : string) (selected : bool) : Player :=
  {| uid := {| name := "A"; source := PLAYERCTL_SOURCE_DBUS_SESSION |};
     state := playing (track title EmptyString EmptyString);
     is_selected := selected |}.

(** The engine after rendering ["Song ~ Artist"] for a paused player. *)
Definition paused_engine : OutputGenerator :=
  {| to_display := "Song ~ Artist"; to_display_utf8_len := 13;
     needs_scrolling := false; display_offset := 0; is_playing := false;
     last_src := {| ls_title := "Song"; ls_artist := "Artist";
                    ls_art_url := EmptyString |} |}.

(** The engine scrolling [text52] for a paused player. *)
Definition scrolling_engine : OutputGenerator :=
  {| to_display := text52; to_display_utf8_len := 52;
     needs_scrolling := true; display_offset := 4; is_playing := false;
     last_src := {| ls_title := text52; ls_artist := EmptyString;
                    ls_art_url := EmptyString |} |}.

(** Two players appear one after the other. *)
Definition two_players_appear : list App.Event :=
  [App.name_appeared (dbus "A")
     (Resolves (playing (track "Song" "Artist" EmptyString)));
   App.name_appeared (dbus "B")
     (Resolves (playing (track text52 EmptyString EmptyString)))].

(** Registries: [A*], [A*, B], [A, B*, C] and [A, B*] (a star marks the
    selected player, which [selected_idx] points at). *)
Definition registry_A : PlayerManager :=
  {| managed_players := [player "A" true]; selected_idx := 0 |}.

Definition registry_AB : PlayerManager :=
  {| managed_players := [player "A" true; player "B" false];
     selected_idx := 0 |}.

Definition registry_ABC_B : PlayerManager :=
  {| managed_players := [player "A" false; player "B" true; player "C" false];
     selected_idx := 1 |}.

Definition registry_AB_B : PlayerManager :=
  {| managed_players := [player "A" false; player "B" true];
     selected_idx := 1 |}.

End Samples.

(** * Theorems *)

(** ** Strings *)

Lemma append_cons (x : ascii) (a b : string) :
  String x a +:+ b = String x (a +:+ b).
Proof. reflexivity. Qed.

Lemma append_empty_l (a : string) : EmptyString +:+ a = a.
Proof. reflexivity. Qed.

Lemma append_assoc (a b c : string) : (a +:+ b) +:+ c = a +:+ (b +:+ c).
Proof.
  induction a as [|x a IH]; [reflexivity|].
  now rewrite !append_cons, IH.
Qed.

Lemma append_empty_r (a : string) : a +:+ EmptyString = a.
Proof.
  induction a as [|x a IH]; [reflexivity|].
  now rewrite append_cons, IH.
Qed.

Lemma length_append (a b : string) :
  String.length (a +:+ b) = (String.length a + String.length b)%nat.
Proof.
  induction a as [|x a IH]; [reflexivity|].
  rewrite append_cons. simpl. now rewrite IH.
Qed.

Lemma get_beyond (s : string) (n : nat) :
  (String.length s <= n)%nat -> String.get n s = None.
Proof.
  revert n; induction s as [|x s IH]; intros [|n] Hn; simpl in *;
    try reflexivity; try lia.
  apply IH. lia.
Qed.

Lemma substring_prefix (b c : string) :
  substring 0 (String.length b) (b +:+ c) = b.
Proof.
  induction b as [|x b IH]; [destruct c; reflexivity|].
  rewrite append_cons. simpl. now rewrite IH.
Qed.

Lemma substring_middle (a b c : string) :
  substring (String.length a) (String.length b) (a +:+ b +:+ c) = b.
Proof.
  induction a as [|x a IH]; [exact (substring_prefix b c)|].
  rewrite append_cons. simpl. exact IH.
Qed.

(** ** File system *)

Section FsFacts.


Lemma removed_root (p : string) (fs : gmap string Fs.Node) :
  Fs.removed p fs !! p = None.
Proof. apply map_lookup_filter_None. left. apply lookup_delete_eq. Qed.

Lemma removed_elsewhere (p q : string) (fs : gmap string Fs.Node) :
  q <> p -> Fs.beneath p q = false -> Fs.removed p fs !! q = fs !! q.
Proof.
  intros Hq Hb. unfold Fs.removed. destruct (fs !! q) as [x|] eqn:Hx.
  - apply map_lookup_filter_Some. split; [|exact Hb].
    now rewrite lookup_delete_ne by congruence.
  - apply map_lookup_filter_None. left.
    now rewrite lookup_delete_ne by congruence.
Qed.

Lemma partly_removed_elsewhere (p q : string) (done : list string)
    (fs : gmap string Fs.Node) :
  Fs.beneath p q = false -> Fs.partly_removed p done fs !! q = fs !! q.
Proof.
  intros Hb. unfold Fs.partly_removed. destruct (fs !! q) as [x|] eqn:Hx.
  - apply map_lookup_filter_Some. split; [exact Hx|]. simpl. now rewrite Hb.
  - apply map_lookup_filter_None. now left.
Qed.





End FsFacts.

(** ** Text encoder *)

Section EncoderFacts.
Import TextEncoder.

Lemma encode_step_spec (buffer : string) (c : ascii) :
  encode_step buffer c = buffer +:+ spec_replacement c.
Proof.
  destruct c as [[] [] [] [] [] [] [] []]; reflexivity.
Qed.

Lemma encode_loop_spec (str buffer : string) :
  encode_loop str buffer = buffer +:+ spec_encode str.
Proof.
  revert buffer; induction str as [|c rest IH]; intros buffer; simpl.
  - now rewrite append_empty_r.
  - rewrite IH, encode_step_spec. apply append_assoc.
Qed.

Lemma spec_replacement_safe (c : ascii) :
  ~ In c escaped_bytes -> spec_replacement c = String c EmptyString.
Proof.
  intros Hc. unfold spec_replacement.
  repeat match goal with
  | |- context [Ascii.eqb c ?k] =>
      destruct (Ascii.eqb_spec c k) as [->|_];
      [exfalso; apply Hc; unfold escaped_bytes; simpl; tauto|]
  end.
  reflexivity.
Qed.

Lemma spec_encode_safe (s : string) : safe s -> spec_encode s = s.
Proof.
  induction s as [|c rest IH]; intros Hs; simpl; [reflexivity|].
  rewrite spec_replacement_safe by (apply Hs; simpl; auto).
  simpl. f_equal. apply IH. intros d Hd. apply Hs. simpl; auto.
Qed.

(** C7. [encode] replaces every byte by what the replacement table gives
    for it (the five markup characters by their entities, newline, tab and
    carriage return by a backslash and a letter, any other byte by itself)
    and keeps the order; it maps the sample with all five markup characters
    to the expected text; and it returns a string with none of the eight
    rewritten bytes unchanged. *)
Theorem encode_correct :
  (forall s, encode s = spec_encode s) /\
  encode ("<a>&'" +:+ String "034" EmptyString) = "&lt;a&gt;&amp;&apos;&quot;" /\
  (forall s, safe s -> encode s = s).
Proof.
  assert (H : forall s, encode s = spec_encode s).
  { intros s. unfold encode. now rewrite encode_loop_spec. }
  split; [exact H|]. split; [reflexivity|].
  intros s Hs. rewrite H. now apply spec_encode_safe.
Qed.

Lemma escape_of_cases (c : ascii) :
  (escape_of c = EmptyString /\ spec_replacement c = String c EmptyString) \/
  (string_empty (escape_of c) = false /\ spec_replacement c = escape_of c).
Proof.
  destruct c as [[] [] [] [] [] [] [] []];
    first [left; split; reflexivity | right; split; reflexivity].
Qed.

(** The loop of [operator<<] with [done] already written, the safe bytes
    [pending] held back and [rest] still to read. *)
Lemma escaped_loop_spec (s rest : string) :
  forall done pending os,
    s = done +:+ pending +:+ rest ->
    flushed s (escaped_loop s rest
                 (String.length done + String.length pending)
                 (String.length done) os)
    = os +:+ pending +:+ spec_encode rest.
Proof.
  induction rest as [|c rest' IH]; intros done pending os Hs.
  - simpl. unfold flushed. simpl. rewrite append_empty_r.
    rewrite Hs, length_append, length_append. simpl.
    rewrite Nat.add_0_r.
    destruct pending as [|x pending'].
    + simpl. rewrite Nat.add_0_r, Nat.ltb_irrefl. now rewrite append_empty_r.
    + replace (String.length done + String.length (String x pending')
               - String.length done)%nat
        with (String.length (String x pending')) by lia.
      rewrite substring_middle.
      destruct (Nat.ltb_spec (String.length done)
                  (String.length done + String.length (String x pending')));
        [reflexivity | simpl in *; lia].
  - simpl escaped_loop. simpl spec_encode.
    destruct (escape_of_cases c) as [[He Hr]|[He Hr]].
    + rewrite He. simpl negb. cbv iota.
      assert (Hs' : s = done +:+ (pending +:+ String c EmptyString) +:+ rest')
        by (rewrite Hs; now rewrite !append_assoc).
      pose proof (IH done (pending +:+ String c EmptyString) os Hs') as IH'.
      rewrite length_append in IH'. simpl String.length in IH'.
      replace (String.length done + (String.length pending + 1))%nat
        with (S (String.length done + String.length pending)) in IH' by lia.
      rewrite IH', Hr. now rewrite !append_assoc.
    + rewrite He. simpl negb. cbv iota zeta.
      assert (Hos : (if (String.length done
                          <? String.length done + String.length pending)%nat
                     then os +:+ substring (String.length done)
                            (String.length done + String.length pending
                             - String.length done) s
                     else os) = os +:+ pending).
      { destruct pending as [|x pending'].
        - simpl. rewrite Nat.add_0_r, Nat.ltb_irrefl.
          now rewrite append_empty_r.
        - replace (String.length done + String.length (String x pending')
                   - String.length done)%nat
            with (String.length (String x pending')) by lia.
          rewrite Hs, substring_middle.
          destruct (Nat.ltb_spec (String.length done)
                      (String.length done + String.length (String x pending')));
            [reflexivity | simpl in *; lia]. }
      rewrite Hos.
      assert (Hs' : s = (done +:+ pending +:+ String c EmptyString)
                        +:+ EmptyString +:+ rest')
        by (rewrite Hs; now rewrite !append_assoc).
      pose proof (IH (done +:+ pending +:+ String c EmptyString) EmptyString
                    ((os +:+ pending) +:+ escape_of c) Hs') as IH'.
      rewrite !length_append in IH'. simpl String.length in IH'.
      replace (String.length done + (String.length pending + 1) + 0)%nat
        with (S (String.length done + String.length pending)) in IH' by lia.
      replace (String.length done + (String.length pending + 1))%nat
        with (S (String.length done + String.length pending)) in IH' by lia.
      rewrite IH', Hr. now rewrite !append_assoc.
Qed.

(** [os << EscapedString(s)] appends to [os] what [encode] returns
    for [s]. *)
Lemma write_escaped_encode (os s : string) :
  write_escaped os s = os +:+ encode s.
Proof.
  pose proof (escaped_loop_spec s s EmptyString EmptyString os eq_refl) as H.
  unfold write_escaped. simpl in H. rewrite H.
  unfold encode. now rewrite encode_loop_spec.
Qed.

Lemma safe_sample : safe "Song ~ Artist".
Proof.
  intros c Hc Hin. simpl in Hc. unfold escaped_bytes in Hin. simpl in Hin.
  repeat match goal with
  | H : _ \/ _ |- _ => destruct H
  | H : False |- _ => destruct H
  end; subst; discriminate.
Defined.

Lemma encode_correct_witness :
  safe "Song ~ Artist" /\ encode "Song ~ Artist" = "Song ~ Artist".
Proof.
  split; [exact safe_sample|].
  exact (proj2 (proj2 encode_correct) "Song ~ Artist" safe_sample).
Defined.

End EncoderFacts.

(** ** Player registry *)

Section RegistryFacts.
Import Meta Registry.
Local Open Scope Z_scope.

Lemma source_eqb_eq (a b : PlayerctlSource) : source_eqb a b = true <-> a = b.
Proof. destruct a, b; simpl; split; congruence. Qed.

Lemma uid_eqb_eq (a b : PlayerUID) : uid_eqb a b = true <-> a = b.
Proof.
  destruct a as [n1 s1], b as [n2 s2]; unfold uid_eqb; simpl.
  rewrite andb_true_iff, source_eqb_eq, String.eqb_eq.
  split; [intros [-> ->]; reflexivity | intros [= -> ->]; auto].
Qed.

Lemma select_selected (p : Player) : is_selected p = true -> select p = p.
Proof. destruct p; simpl; intros ->; reflexivity. Qed.

Lemma filter_unselected (l : list Player) :
  Forall (fun q => is_selected q = false) l ->
  filter (fun p => is_selected p = true) l = [].
Proof.
  induction 1 as [|q l Hq _ IH]; [reflexivity|].
  rewrite filter_cons_False by congruence. exact IH.
Qed.

Lemma head_selected_invariant (m : PlayerManager) :
  head_selected m -> selection_invariant m.
Proof.
  unfold head_selected, selection_invariant, selected_count.
  destruct (managed_players m) as [|p rest].
  - intros _. split; [congruence|]. reflexivity.
  - intros (_ & Hp & Hrest). split; [intros _ | discriminate].
    rewrite filter_cons_True by exact Hp.
    now rewrite filter_unselected.
Qed.

Lemma head_selected_initial : head_selected initial.
Proof. reflexivity. Qed.

Lemma add_keeps_head_selected pname r m m' effects :
  head_selected m ->
  add_player_by_name pname r m = Returns (m', effects) ->
  head_selected m'.
Proof.
  unfold head_selected, add_player_by_name. intros Hm.
  destruct (existsb _ _); [intros [= <- _]; exact Hm|].
  destruct r as [message|st]; [discriminate|].
  destruct (managed_players m) as [|p rest].
  - rewrite Hm. simpl. intros [= <- _]. simpl. repeat split. constructor.
  - destruct Hm as (Hidx & Hp & Hrest). rewrite Hidx. simpl.
    intros [= <- _]. simpl. repeat split; [exact Hp|].
    apply Forall_app. split; [exact Hrest|]. repeat constructor.
Qed.

Lemma vanished_keeps_head_selected pname m m' effects :
  head_selected m ->
  on_name_vanished pname m = Returns (m', effects) ->
  head_selected m'.
Proof.
  unfold head_selected, on_name_vanished. intros Hm.
  destruct (find_entry pname m) as [[entry p]|] eqn:Hfind;
    [|intros [= <- _]; exact Hm].
  apply list_find_Some in Hfind as (Hlook & _ & _).
  destruct (managed_players m) as [|q rest]; [discriminate|].
  destruct Hm as (Hidx & Hq & Hrest). rewrite Hidx.
  destruct entry as [|k]; simpl in Hlook.
  - injection Hlook as <-. rewrite Hq. simpl.
    destruct rest as [|r0 rest']; simpl.
    + intros [= <- _]. reflexivity.
    + inversion Hrest; subst. intros [= <- _]. simpl. auto.
  - assert (Hp : is_selected p = false).
    { eapply (proj1 (Forall_lookup _ _) Hrest); eauto. }
    rewrite Hp. simpl. intros [= <- _]. simpl. repeat split.
    now apply Forall_delete.
Qed.

Lemma reachable_head_selected (m : PlayerManager) :
  reachable m -> head_selected m.
Proof.
  induction 1 as [|pname r m m' effects _ IH Hadd|pname m m' effects _ IH Hvan].
  - exact head_selected_initial.
  - exact (add_keeps_head_selected _ _ _ _ _ IH Hadd).
  - exact (vanished_keeps_head_selected _ _ _ _ IH Hvan).
Qed.

(** In a registry with the first player selected, the vanished handler
    always returns: the index it uses is in range. *)
Lemma vanished_returns pname m :
  head_selected m ->
  exists m' effects, on_name_vanished pname m = Returns (m', effects).
Proof.
  unfold head_selected, on_name_vanished. intros Hm.
  destruct (find_entry pname m) as [[entry p]|] eqn:Hfind; [|eauto].
  apply list_find_Some in Hfind as (Hlook & _ & _).
  destruct (managed_players m) as [|q rest]; [discriminate|].
  destruct Hm as (Hidx & Hq & Hrest). rewrite Hidx.
  destruct entry as [|k]; simpl in Hlook.
  - injection Hlook as <-. rewrite Hq. simpl.
    destruct rest as [|r0 rest']; simpl; eauto.
  - assert (Hp : is_selected p = false).
    { eapply (proj1 (Forall_lookup _ _) Hrest); eauto. }
    rewrite Hp. simpl. eauto.
Qed.

(** C1. In every registry state the program can reach, a non-empty
    sequence of managed players has exactly one player with [is_selected]
    set and an empty one has none; and the same holds of the state every
    [add_player_by_name] and every [on_name_vanished] returns from it. *)
Theorem selection_invariant_reachable (m : PlayerManager) :
  reachable m ->
  selection_invariant m /\
  (forall pname r m' effects,
      add_player_by_name pname r m = Returns (m', effects) ->
      selection_invariant m') /\
  (forall pname m' effects,
      on_name_vanished pname m = Returns (m', effects) ->
      selection_invariant m').
Proof.
  intros Hm. pose proof (reachable_head_selected m Hm) as Hh.
  split; [now apply head_selected_invariant|]. split.
  - intros pname r m' effects Hadd. apply head_selected_invariant.
    eapply add_keeps_head_selected; eauto.
  - intros pname m' effects Hvan. apply head_selected_invariant.
    eapply vanished_keeps_head_selected; eauto.
Qed.

Lemma reachable_registry_AB : reachable Samples.registry_AB.
Proof.
  eapply (reachable_add (Samples.dbus "B")
            (Resolves (Samples.playing (Samples.track "Song" "Artist" EmptyString)))
            Samples.registry_A); [|reflexivity].
  eapply (reachable_add (Samples.dbus "A")
            (Resolves (Samples.playing (Samples.track "Song" "Artist" EmptyString)))
            initial); [|reflexivity].
  exact reachable_initial.
Defined.

Lemma selection_invariant_reachable_witness :
  reachable Samples.registry_AB /\ selection_invariant Samples.registry_AB.
Proof.
  split; [exact reachable_registry_AB|].
  exact (proj1 (selection_invariant_reachable _ reachable_registry_AB)).
Defined.

(** C9. In every registry state the program can reach, [selected_idx] is
    [NON_IDX] exactly when no player is managed and otherwise lies below
    [managed_players.size()]; so [selected_player] returns without an
    out-of-range access, and so does [on_name_vanished] for any name. *)
Theorem selected_idx_in_range (m : PlayerManager) :
  reachable m ->
  (selected_idx m = NON_IDX <-> managed_players m = []) /\
  (managed_players m <> [] ->
   0 <= selected_idx m < size (managed_players m)) /\
  (exists r, selected_player m = Returns r) /\
  (forall pname, exists m' effects,
      on_name_vanished pname m = Returns (m', effects)).
Proof.
  intros Hm. pose proof (reachable_head_selected m Hm) as Hh.
  split; [|split; [|split]].
  - unfold head_selected in Hh.
    destruct (managed_players m) as [|p rest]; [tauto|].
    destruct Hh as (Hidx & _). rewrite Hidx.
    split; [discriminate|discriminate].
  - unfold head_selected in Hh. unfold size.
    destruct (managed_players m) as [|p rest]; [congruence|].
    destruct Hh as (Hidx & _). rewrite Hidx. intros _. simpl. lia.
  - unfold head_selected in Hh. unfold selected_player.
    destruct (managed_players m) as [|p rest].
    + rewrite Hh. simpl. eauto.
    + destruct Hh as (Hidx & _). rewrite Hidx. simpl. eauto.
  - intros pname. now apply vanished_returns.
Qed.

Lemma selected_idx_in_range_witness :
  reachable Samples.registry_AB /\
  0 <= selected_idx Samples.registry_AB
    < size (managed_players Samples.registry_AB).
Proof.
  split; [exact reachable_registry_AB|].
  apply (proj1 (proj2 (selected_idx_in_range _ reachable_registry_AB))).
  discriminate.
Defined.

(** C2, as the code has it. In every registry state the program can
    reach, when the vanished name is found at an entry that is not
    selected, no [is_selected] flag changes and [selected_idx] is not
    recomputed: the sequence afterwards is the one before without that
    entry. The handler's [on_select] is nevertheless called once, with the
    player that already was selected. *)
Theorem vanished_unselected_frame (m : PlayerManager) pname entry p :
  reachable m ->
  find_entry pname m = Some (entry, p) ->
  is_selected p = false ->
  exists q,
    at_index (selected_idx m) (managed_players m) = Some q /\
    is_selected q = true /\
    on_name_vanished pname m =
      Returns ({| managed_players := delete entry (managed_players m);
                  selected_idx := selected_idx m |},
               [call_on_select q]).
Proof.
  intros Hm Hfind Hp. pose proof (reachable_head_selected m Hm) as Hh.
  unfold on_name_vanished. rewrite Hfind.
  apply list_find_Some in Hfind as (Hlook & _ & _).
  unfold head_selected in Hh.
  destruct (managed_players m) as [|q rest]; [discriminate|].
  destruct Hh as (Hidx & Hq & Hrest). rewrite Hidx, Hp.
  destruct entry as [|k]; simpl in Hlook; [congruence|].
  exists q. simpl. rewrite (select_selected q Hq). auto.
Qed.

Lemma vanished_unselected_frame_witness :
  exists q,
    is_selected q = true /\
    on_name_vanished (Samples.dbus "B") Samples.registry_AB =
      Returns (Samples.registry_A, [call_on_select q]).
Proof.
  destruct (vanished_unselected_frame Samples.registry_AB (Samples.dbus "B")
              1%nat (Samples.player "B" false)
              reachable_registry_AB eq_refl eq_refl) as (q & _ & Hq & Hrun).
  exists q. split; [exact Hq | exact Hrun].
Defined.

(** C2, as stated, fails: removing the unselected [B] from the reachable
    registry [A*, B] calls [on_select] (with [A]), where the claim has no
    select notification. *)
Lemma vanished_unselected_fires_select :
  reachable Samples.registry_AB /\
  find_entry (Samples.dbus "B") Samples.registry_AB
    = Some (1%nat, Samples.player "B" false) /\
  on_name_vanished (Samples.dbus "B") Samples.registry_AB
    = Returns (Samples.registry_A, [call_on_select (Samples.player "A" true)]) /\
  on_name_vanished (Samples.dbus "B") Samples.registry_AB
    <> Returns (Samples.registry_A, []).
Proof.
  split; [exact reachable_registry_AB|].
  split; [reflexivity|]. split; [reflexivity|]. discriminate.
Qed.

Lemma find_entry_last (l : list Player) (p : Player) pname :
  uid p = player_uid_of pname ->
  (forall q, q ∈ l -> uid q <> uid p) ->
  find_entry pname {| managed_players := l ++ [p];
                      selected_idx := size l |}
    = Some (List.length l, p).
Proof.
  intros Hp Hl. unfold find_entry. simpl. apply list_find_Some.
  split; [|split].
  - rewrite lookup_app_r by lia. now rewrite Nat.sub_diag.
  - apply uid_eqb_eq. exact Hp.
  - intros j y Hy Hj Habs. apply uid_eqb_eq in Habs.
    rewrite lookup_app_l in Hy by exact Hj.
    apply (Hl y); [eapply list_elem_of_lookup_2; eauto | congruence].
Qed.

(** C3. From the registry [A, B, C] with [B] selected, the vanishing of
    [B] leaves [A, C] with [C], the entry now at [B]'s position, selected
    and calls [on_select] with [C]; and whenever the selected player is
    the last of the sequence and others remain, its vanishing selects the
    first remaining player, with [selected_idx] back at 0. *)
Theorem reselection_on_vanish :
  (forall A B C pname,
      uid B = player_uid_of pname ->
      uid A <> uid B ->
      is_selected A = false -> is_selected B = true -> is_selected C = false ->
      let m' := {| managed_players := [A; select C]; selected_idx := 1 |} in
      on_name_vanished pname
        {| managed_players := [A; B; C]; selected_idx := 1 |}
        = Returns (m', [call_on_select (select C)]) /\
      selected_player m' = Returns (Some (select C)) /\
      selected_count m' = 1%nat) /\
  (forall first rest p pname,
      uid p = player_uid_of pname ->
      (forall q, q ∈ first :: rest -> uid q <> uid p) ->
      is_selected p = true ->
      on_name_vanished pname
        {| managed_players := (first :: rest) ++ [p];
           selected_idx := size (first :: rest) |}
        = Returns ({| managed_players := select first :: rest;
                      selected_idx := 0 |},
                   [call_on_select (select first)])).
Proof.
  split.
  - intros A B C pname HB HAB HsA HsB HsC m'.
    assert (Hfind : find_entry pname
                      {| managed_players := [A; B; C]; selected_idx := 1 |}
                    = Some (1%nat, B)).
    { unfold find_entry. apply list_find_Some. split; [reflexivity|].
      split; [now apply uid_eqb_eq|].
      intros j y Hy Hj Habs. apply uid_eqb_eq in Habs.
      destruct j as [|j]; [|lia]. simpl in Hy. congruence. }
    split; [|split].
    + unfold on_name_vanished. rewrite Hfind.
      simpl. rewrite HsB. reflexivity.
    + reflexivity.
    + unfold selected_count, m'. simpl.
      rewrite filter_cons_False by congruence.
      now rewrite filter_cons_True by reflexivity.
  - intros first rest p pname Hp Hl Hsel.
    pose proof (find_entry_last (first :: rest) p pname Hp Hl) as Hfind.
    unfold on_name_vanished. rewrite Hfind.
    cbv zeta. cbn [managed_players selected_idx].
    rewrite Hsel.
    replace (delete (List.length (first :: rest)) ((first :: rest) ++ [p])%list)
      with (first :: rest)
      by (rewrite (delete_middle (first :: rest) [] p); now rewrite app_nil_r).
    replace (size (first :: rest) =? 0) with false
      by (symmetry; apply Z.eqb_neq; unfold size; simpl; lia).
    replace (size (first :: rest) >=? size (first :: rest)) with true
      by (symmetry; apply Z.geb_le; lia).
    reflexivity.
Qed.

Lemma reselection_on_vanish_witness :
  on_name_vanished (Samples.dbus "B") Samples.registry_ABC_B
    = Returns ({| managed_players :=
                    [Samples.player "A" false; Samples.player "C" true];
                  selected_idx := 1 |},
               [call_on_select (Samples.player "C" true)]) /\
  on_name_vanished (Samples.dbus "B") Samples.registry_AB_B
    = Returns ({| managed_players := [Samples.player "A" true];
                  selected_idx := 0 |},
               [call_on_select (Samples.player "A" true)]).
Proof.
  split.
  - exact (proj1 (proj1 reselection_on_vanish
              (Samples.player "A" false) (Samples.player "B" true)
              (Samples.player "C" false) (Samples.dbus "B")
              eq_refl ltac:(discriminate) eq_refl eq_refl eq_refl)).
  - refine (proj2 reselection_on_vanish
              (Samples.player "A" false) [] (Samples.player "B" true)
              (Samples.dbus "B") eq_refl _ eq_refl).
    intros q Hq. apply list_elem_of_singleton in Hq. subst q. discriminate.
Defined.

End RegistryFacts.

(** ** Metadata parser *)

Section MetadataFacts.
Import GLib Meta.

(** The three getters with a null test return the default for an absent
    key and call nothing of glib's on the missing variant. *)
Lemma guarded_getters_absent (dict : gmap string GVariant) (key : string) :
  dict !! key = None ->
  metadata_get_u64_value dict key = 0%Z /\
  metadata_get_str_value dict key = EmptyString.
Proof.
  intros Hkey.
  unfold metadata_get_u64_value, metadata_get_str_value, g_variant_lookup_value.
  now rewrite Hkey.
Qed.

(** Without an artist entry the looked-up variant is null, and
    [g_variant_get_strv] is called on it all the same: its precondition
    check fails. The artist comes out empty because [prop_count] was never
    written. *)
Lemma str_array_value_absent (dict : gmap string GVariant) (key : string) :
  dict !! key = None ->
  metadata_get_str_array_value dict key
    = (EmptyString, (g_variant_get_strv None).2) /\
  (g_variant_get_strv None).2 <> [].
Proof.
  intros Hkey. split; [|discriminate].
  unfold metadata_get_str_array_value, g_variant_lookup_value.
  now rewrite Hkey.
Qed.

(** C10, on the empty dictionary: every field takes its default, but the
    artist getter has gone through the failed precondition check of
    [g_variant_get_strv] on the null lookup result, which the guarded
    getters never reach. *)
Theorem parse_metadata_empty_dictionary :
  (parse_metadata ∅).1 = empty_metadata /\
  (parse_metadata ∅).2 = (g_variant_get_strv None).2 /\
  (parse_metadata ∅).2 <> [].
Proof. split; [reflexivity|]. split; [reflexivity|discriminate]. Qed.

End MetadataFacts.

(** ** Marquee engine *)

Section EngineFacts.
Import TextEncoder GLib Meta Registry Engine.
Local Open Scope Z_scope.

(** [display] touches nothing but the scroll offset. *)
Lemma display_body_frame (g : OutputGenerator) (os : string) :
  (display_body g os).1 = g \/
  (display_body g os).1 = set_display_offset 0 g.
Proof.
  unfold display_body.
  repeat match goal with
  | |- context [if ?b then _ else _] => destruct b
  end; simpl; auto.
Qed.

Lemma display_frame (g : OutputGenerator) :
  (display g).1 = g \/ (display g).1 = set_display_offset 0 g.
Proof.
  unfold display.
  destruct (display_body_frame g
    ("{" +:+ dquote +:+ "text" +:+ dquote +:+ ":" +:+ dquote
     +:+ (if negb (is_playing g) then "<i>" else EmptyString))) as [H|H];
  destruct (display_body g _) as [g1 os1]; simpl in *; auto.
Qed.

Lemma display_last_src (g : OutputGenerator) :
  last_src (display g).1 = last_src g /\
  is_playing (display g).1 = is_playing g.
Proof. destruct (display_frame g) as [-> | ->]; auto. Qed.

(** A two-byte sequence counts as one codepoint and is cut as a whole. *)
Example g_utf8_strlen_two_byte :
  g_utf8_strlen ("a" +:+ String "195" (String "169" "z")) = 3.
Proof. reflexivity. Qed.

Example utf8_substr_two_byte :
  utf8_substr ("a" +:+ String "195" (String "169" "z")) 1 1
  = String "195" (String "169" EmptyString).
Proof. reflexivity. Qed.

(** [g_utf8_strlen] counts at most one codepoint per byte. *)
Lemma strlen_loop_le (fuel : nat) (s : string) (p : nat) :
  0 <= strlen_loop fuel s p <= Z.of_nat fuel.
Proof.
  revert p; induction fuel as [|fuel IH]; intros p; simpl strlen_loop; [lia|].
  destruct (Ascii.eqb _ _); [lia|]. specialize (IH (g_utf8_next_char s p)). lia.
Qed.

Lemma g_utf8_strlen_le (s : string) :
  0 <= g_utf8_strlen s <= Z.of_nat (String.length s).
Proof. apply strlen_loop_le. Qed.

(** More fuel than the bytes of the string changes nothing: the walk of
    [g_utf8_strlen] has ended by then. *)
Lemma strlen_loop_enough (s : string) :
  forall fuel p extra,
    (String.length s <= p + fuel)%nat ->
    strlen_loop (fuel + extra) s p = strlen_loop fuel s p.
Proof.
  induction fuel as [|fuel IH]; intros p extra Hp.
  - destruct extra as [|extra]; [reflexivity|]. simpl.
    unfold byte_at. now rewrite get_beyond by lia.
  - simpl. destruct (Ascii.eqb _ _); [reflexivity|]. f_equal.
    apply IH. unfold g_utf8_next_char, g_utf8_skip.
    repeat match goal with |- context [if ?b then _ else _] => destruct b end;
      lia.
Qed.

Lemma strlen_loop_fuel (s : string) (f1 f2 p : nat) :
  (String.length s <= p + f1)%nat ->
  (String.length s <= p + f2)%nat ->
  strlen_loop f1 s p = strlen_loop f2 s p.
Proof.
  intros H1 H2. destruct (Nat.le_ge_cases f1 f2) as [Hle|Hle].
  - replace f2 with (f1 + (f2 - f1))%nat by lia.
    symmetry. now apply strlen_loop_enough.
  - replace f1 with (f2 + (f1 - f2))%nat by lia.
    now apply strlen_loop_enough.
Qed.

Lemma get_append_l (a b : string) (p : nat) :
  (p < String.length a)%nat -> String.get p (a +:+ b) = String.get p a.
Proof.
  revert p; induction a as [|x a IH]; intros p Hp; simpl in Hp; [lia|].
  rewrite append_cons. destruct p as [|p]; simpl; [reflexivity|].
  apply IH. lia.
Qed.

Lemma get_append_r (a b : string) (k : nat) :
  String.get (String.length a + k) (a +:+ b) = String.get k b.
Proof.
  induction a as [|x a IH]; [reflexivity|].
  rewrite append_cons. simpl. exact IH.
Qed.

Lemma strlen_loop_append_r (a b : string) (fuel q : nat) :
  strlen_loop fuel (a +:+ b) (String.length a + q) = strlen_loop fuel b q.
Proof.
  revert q; induction fuel as [|fuel IH]; intros q; [reflexivity|].
  simpl. unfold g_utf8_next_char, byte_at. rewrite get_append_r.
  destruct (Ascii.eqb _ _); [reflexivity|].
  rewrite <- Nat.add_assoc. now rewrite IH.
Qed.

Lemma strlen_loop_aligned (a b : string) (p : nat) :
  aligned a p ->
  forall fuel fa fb,
    (String.length a + String.length b <= p + fuel)%nat ->
    (String.length a <= p + fa)%nat ->
    (String.length b <= fb)%nat ->
    strlen_loop fuel (a +:+ b) p = strlen_loop fa a p + strlen_loop fb b 0.
Proof.
  induction 1 as [|p Hp Hnul _ IH]; intros fuel fa fb Hfuel Hfa Hfb.
  - replace (String.length a) with (String.length a + 0)%nat at 1 by lia.
    rewrite strlen_loop_append_r.
    rewrite (strlen_loop_fuel b fuel fb 0) by lia.
    destruct fa as [|fa]; simpl; [reflexivity|].
    unfold byte_at. rewrite get_beyond by lia. reflexivity.
  - destruct fuel as [|fuel]; [lia|]. destruct fa as [|fa]; [lia|].
    simpl. unfold g_utf8_next_char, byte_at in *.
    rewrite get_append_l by exact Hp. rewrite Hnul.
    rewrite (IH fuel fa fb); [lia| | |exact Hfb].
    + unfold g_utf8_skip.
      repeat match goal with |- context [if ?c then _ else _] => destruct c end;
        lia.
    + unfold g_utf8_skip.
      repeat match goal with |- context [if ?c then _ else _] => destruct c end;
        lia.
Qed.

(** The codepoint count of a concatenation is the sum of the counts when
    the first part ends on a sequence boundary. *)
Lemma g_utf8_strlen_append (a b : string) :
  utf8_aligned a -> g_utf8_strlen (a +:+ b) = g_utf8_strlen a + g_utf8_strlen b.
Proof.
  intros Ha. unfold g_utf8_strlen.
  apply (strlen_loop_aligned a b 0 Ha); rewrite ?length_append; lia.
Qed.

Lemma aligned_seperator : utf8_aligned " ~ ".
Proof.
  unfold utf8_aligned.
  repeat (apply aligned_step; [cbv; lia | reflexivity | ]).
  exact (aligned_end " ~ ").
Qed.

(** For a title that ends on a sequence boundary, the length
    [update_to_display] stores is the codepoint count of the text it
    builds from the raw title and artist. *)
Lemma combined_length_raw (title artist : string) :
  utf8_aligned title ->
  combined_length title artist
  = g_utf8_strlen (title +:+ separator_for title artist +:+ artist).
Proof.
  intros Ht. unfold combined_length, separator_for.
  rewrite g_utf8_strlen_append by exact Ht.
  destruct (negb (string_empty title) && negb (string_empty artist)).
  - rewrite (g_utf8_strlen_append " ~ " artist aligned_seperator).
    change (g_utf8_strlen " ~ ") with 3. lia.
  - rewrite append_empty_l. lia.
Qed.

(** C5. [update_to_display] clears [needs_scrolling] and stores the
    escaped text exactly when the codepoint length of the title, the
    separator (counted only between a non-empty title and a non-empty
    artist) and the artist is at most 50: a length of 50 is displayed
    statically, and from 51 on [needs_scrolling] is set and the raw text
    and its codepoint length are kept. The length is the sum of the
    codepoint counts of the parts, which for a title that ends on a
    sequence boundary is the codepoint count of the raw text. *)
Theorem static_scrolling_boundary (title artist : string) (g : OutputGenerator) :
  let g' := update_to_display title artist g in
  let len := combined_length title artist in
  let sep := separator_for title artist in
  ((needs_scrolling g' = false /\
    to_display g' = encode title +:+ sep +:+ encode artist)
   <-> len <= 50) /\
  (len = 50 ->
   needs_scrolling g' = false /\
   to_display g' = encode title +:+ sep +:+ encode artist) /\
  (len = 51 ->
   needs_scrolling g' = true /\
   to_display g' = title +:+ sep +:+ artist /\
   to_display_utf8_len g' = 51) /\
  (50 < len ->
   needs_scrolling g' = true /\
   to_display g' = title +:+ sep +:+ artist /\
   to_display_utf8_len g' = len) /\
  (50 < len -> utf8_aligned title ->
   to_display_utf8_len g' = g_utf8_strlen (to_display g')).
Proof.
  intros g' len sep.
  assert (Hraw : 50 < len -> utf8_aligned title ->
                 to_display_utf8_len g' = g_utf8_strlen (to_display g')).
  { intros Hlen Ht. subst g' len. unfold update_to_display.
    fold (combined_length title artist). fold (separator_for title artist).
    replace (combined_length title artist <=? max_width) with false
      by (symmetry; apply Z.leb_gt; exact Hlen).
    simpl. now apply combined_length_raw. }
  subst g' len sep.
  unfold update_to_display, combined_length, separator_for, max_width in *.
  set (has_seperator := negb (string_empty title) && negb (string_empty artist))
    in *.
  set (len := g_utf8_strlen title + (if has_seperator then 3 else 0)
              + g_utf8_strlen artist) in *.
  destruct (Z.leb_spec len 50) as [Hle|Hgt]; simpl.
  - repeat split; auto; intros; lia.
  - split; [split; [intros [? _]; discriminate | lia]|].
    repeat split; auto; lia.
Qed.

Lemma aligned_text51 : utf8_aligned Samples.text51.
Proof.
  unfold utf8_aligned.
  repeat (apply aligned_step; [cbv; lia | reflexivity | ]).
  exact (aligned_end Samples.text51).
Defined.

Lemma static_scrolling_boundary_witness :
  (combined_length Samples.text50 EmptyString = 50 /\
   needs_scrolling (update_to_display Samples.text50 EmptyString fresh) = false) /\
  (combined_length "0123456789abcdefghijklmnopqrstuvwxyzABCDE" "Artist" = 50 /\
   needs_scrolling
     (update_to_display "0123456789abcdefghijklmnopqrstuvwxyzABCDE" "Artist"
        fresh) = false) /\
  (combined_length Samples.text51 EmptyString = 51 /\
   needs_scrolling (update_to_display Samples.text51 EmptyString fresh) = true /\
   to_display (update_to_display Samples.text51 EmptyString fresh)
     = Samples.text51) /\
  to_display_utf8_len (update_to_display Samples.text51 EmptyString fresh)
  = g_utf8_strlen
      (to_display (update_to_display Samples.text51 EmptyString fresh)).
Proof.
  split; [|split; [|split]].
  - split; [reflexivity|].
    exact (proj1 (proj1 (proj2
             (static_scrolling_boundary Samples.text50 EmptyString fresh))
             eq_refl)).
  - split; [reflexivity|].
    exact (proj1 (proj1 (proj2
             (static_scrolling_boundary
                "0123456789abcdefghijklmnopqrstuvwxyzABCDE" "Artist" fresh))
             eq_refl)).
  - split; [reflexivity|].
    destruct (proj1 (proj2 (proj2
                (static_scrolling_boundary Samples.text51 EmptyString fresh)))
                eq_refl) as (Hn & Ht & _).
    split; [exact Hn|]. rewrite Ht. reflexivity.
  - exact (proj2 (proj2 (proj2 (proj2
             (static_scrolling_boundary Samples.text51 EmptyString fresh))))
             eq_refl aligned_text51).
Defined.

(** Rendering at offset 0 of a text of at least [max_width] codepoints:
    the escaped first [max_width] codepoints, and the engine unchanged. *)
Lemma display_at_zero (g : OutputGenerator) :
  needs_scrolling g = true ->
  display_offset g = 0 ->
  max_width <= to_display_utf8_len g ->
  display g
  = (g, window_line (is_playing g)
          (encode (utf8_substr (to_display g) 0 max_width))).
Proof.
  intros Hn Ho HL. unfold display, display_body. rewrite Hn, Ho. simpl negb.
  cbv iota.
  replace (0 <? to_display_utf8_len g) with true
    by (symmetry; apply Z.ltb_lt; unfold max_width in HL; lia).
  replace (to_display_utf8_len g - 0 >=? max_width) with true
    by (symmetry; apply Z.geb_le; lia).
  rewrite write_escaped_encode. f_equal.
  unfold window_line, display_print_line. now rewrite !append_assoc.
Qed.

(** Rendering once the separator has been scrolled past: the offset goes
    back to 0 and the same window is written. *)
Lemma display_reset (g : OutputGenerator) :
  needs_scrolling g = true ->
  to_display_utf8_len g <= display_offset g ->
  2 < display_offset g - to_display_utf8_len g ->
  display g
  = (set_display_offset 0 g,
     window_line (is_playing g)
       (encode (utf8_substr (to_display g) 0 max_width))).
Proof.
  intros Hn Hle Hgt. unfold display, display_body. rewrite Hn. simpl negb.
  cbv iota.
  replace (display_offset g <? to_display_utf8_len g) with false
    by (symmetry; apply Z.ltb_ge; lia).
  replace (display_offset g - to_display_utf8_len g >? 2) with true
    by (symmetry; apply Z.gtb_lt; lia).
  rewrite write_escaped_encode. f_equal.
  unfold window_line, display_print_line. now rewrite !append_assoc.
Qed.

(** Rendering anywhere before that leaves the engine as it is. *)
Lemma display_keeps (g : OutputGenerator) :
  needs_scrolling g = true ->
  display_offset g - to_display_utf8_len g <= 2 ->
  (display g).1 = g.
Proof.
  intros Hn Hle. unfold display, display_body. rewrite Hn. simpl negb.
  cbv iota.
  destruct (display_offset g <? to_display_utf8_len g).
  - repeat match goal with |- context [if ?b then _ else _] => destruct b end;
      reflexivity.
  - replace (display_offset g - to_display_utf8_len g >? 2) with false
      by (symmetry; rewrite Z.gtb_ltb; apply Z.ltb_ge; lia).
    reflexivity.
Qed.

Lemma set_display_offset_twice (a b : Z) (g : OutputGenerator) :
  set_display_offset a (set_display_offset b g) = set_display_offset a g.
Proof. reflexivity. Qed.

Lemma set_display_offset_same (g : OutputGenerator) :
  set_display_offset (display_offset g) g = g.
Proof. destruct g; reflexivity. Qed.

(** While the offset has not passed the separator, [k] ticks from offset 0
    leave the engine at offset [k]. *)
Lemma after_ticks_offset (g : OutputGenerator) (k : nat) :
  needs_scrolling g = true ->
  display_offset g = 0 ->
  Z.of_nat k <= to_display_utf8_len g + 2 ->
  to_display_utf8_len g + 3 < 2 ^ 64 ->
  after_ticks k g = set_display_offset (Z.of_nat k) g.
Proof.
  intros Hn Ho. induction k as [|k IH]; intros Hk HL.
  - unfold after_ticks. cbn [Nat.iter]. change (Z.of_nat 0) with 0.
    rewrite <- Ho. symmetry. apply set_display_offset_same.
  - unfold after_ticks in *. simpl Nat.iter. rewrite IH by lia.
    unfold scoll. simpl needs_scrolling. rewrite Hn. simpl negb. cbv iota.
    simpl display_offset. rewrite set_display_offset_twice.
    unfold size_t. rewrite Z.mod_small by lia.
    replace (Z.of_nat k + 1) with (Z.of_nat (S k)) by lia.
    pose proof (display_keeps (set_display_offset (Z.of_nat (S k)) g)) as Hd.
    destruct (display _) as [g1 line]. simpl in *. apply Hd; [exact Hn|lia].
Qed.

(** C4. For a scrolling text of [L > 50] codepoints rendered from offset
    0, the [(L+3)]-th tick writes the very line written at offset 0, whose
    window is the escaped first 50 codepoints of the raw text; the engine
    is then back in the state it started from, so the lines written repeat
    with period [L + 3]. *)
Theorem window_cycle (g : OutputGenerator) (L : Z) :
  needs_scrolling g = true ->
  to_display_utf8_len g = L ->
  display_offset g = 0 ->
  50 < L ->
  L + 3 < 2 ^ 64 ->
  tick_output (Z.to_nat (L + 3)) g = [(display g).2] /\
  (display g).2
    = window_line (is_playing g) (encode (utf8_substr (to_display g) 0 50)) /\
  after_ticks (Z.to_nat (L + 3)) g = g /\
  (forall n, (1 <= n)%nat ->
     tick_output (n + Z.to_nat (L + 3)) g = tick_output n g).
Proof.
  intros Hn HL Ho H50 H64.
  assert (Hlast : scoll (after_ticks (Z.to_nat (L + 2)) g)
                  = (g, [(display g).2])).
  { rewrite after_ticks_offset by (try assumption; lia).
    rewrite Z2Nat.id by lia.
    unfold scoll. simpl needs_scrolling. rewrite Hn. simpl negb. cbv iota.
    simpl display_offset. rewrite set_display_offset_twice.
    unfold size_t. rewrite Z.mod_small by lia.
    rewrite display_reset by (simpl; first [assumption | lia]).
    rewrite display_at_zero by (unfold max_width; try assumption; lia).
    simpl. rewrite set_display_offset_twice, <- Ho.
    now rewrite set_display_offset_same. }
  assert (Hback : after_ticks (Z.to_nat (L + 3)) g = g).
  { replace (Z.to_nat (L + 3)) with (S (Z.to_nat (L + 2))) by lia.
    unfold after_ticks in *. simpl Nat.iter. now rewrite Hlast. }
  split; [|split; [|split]].
  - unfold tick_output.
    replace (Z.to_nat (L + 3) - 1)%nat with (Z.to_nat (L + 2)) by lia.
    now rewrite Hlast.
  - rewrite display_at_zero by (unfold max_width; try assumption; lia).
    reflexivity.
  - exact Hback.
  - intros n Hn1. unfold tick_output.
    replace (n + Z.to_nat (L + 3) - 1)%nat
      with ((n - 1) + Z.to_nat (L + 3))%nat by lia.
    unfold after_ticks in *. now rewrite Nat.iter_add, Hback.
Qed.

Lemma window_cycle_witness :
  tick_output 55 (update_to_display Samples.text52 EmptyString fresh)
  = [(display (update_to_display Samples.text52 EmptyString fresh)).2].
Proof.
  exact (proj1 (window_cycle
                  (update_to_display Samples.text52 EmptyString fresh) 52
                  eq_refl eq_refl eq_refl eq_refl eq_refl)).
Defined.

Section Updates.

Variable cache_path : string.

Lemma update_cover_art_engine faults pkill_ret art_url g fs :
  (update_cover_art cache_path faults pkill_ret art_url g fs).1.1
  = set_last_src {| ls_title := ls_title (last_src g);
                    ls_artist := ls_artist (last_src g);
                    ls_art_url := art_url |} g.
Proof.
  unfold update_cover_art.
  destruct (cover_art_body _ _ _ _ _) as [[what|cerr] fs']; reflexivity.
Qed.

(** After any update the engine remembers the title, the artist and the
    playing flag of the player it was given. *)
Lemma on_update_seleceted_remembers faults pkill_ret player g fs :
  let r := on_update_seleceted cache_path faults pkill_ret player g fs in
  ls_title (last_src (run_engine r)) = Meta.title (metadata (state player)) /\
  ls_artist (last_src (run_engine r)) = Meta.artist (metadata (state player)) /\
  is_playing (run_engine r) = playing_flag player.
Proof.
  unfold on_update_seleceted, playing_flag.
  set (title := Meta.title (metadata (state player))).
  set (artist := Meta.artist (metadata (state player))).
  set (art_url := Meta.art_url (metadata (state player))).
  set (new_is_playing := playback_status_eqb _ _).
  assert (Hpre : exists g1 fs1 cerr,
    (if negb (String.eqb art_url (ls_art_url (last_src g)))
     then update_cover_art cache_path faults pkill_ret art_url g fs
     else (g, fs, [])) = (g1, fs1, cerr) /\
    ls_title (last_src g1) = ls_title (last_src g) /\
    ls_artist (last_src g1) = ls_artist (last_src g) /\
    is_playing g1 = is_playing g).
  { destruct (negb _).
    - pose proof (update_cover_art_engine faults pkill_ret art_url g fs) as He.
      destruct (update_cover_art _ _ _ _ _ _) as [[g1 fs1] cerr].
      simpl in He. subst g1. eauto 10.
    - eauto 10. }
  destruct Hpre as (g1 & fs1 & cerr & -> & Ht & Ha & Hp).
  destruct (String.eqb_spec (ls_title (last_src g1)) title) as [Het|Hnt];
  [destruct (String.eqb_spec (ls_artist (last_src g1)) artist) as [Hea|Hna]|];
  simpl.
  - destruct (Bool.eqb (is_playing g1) new_is_playing) eqn:Hb; simpl.
    + apply Bool.eqb_prop in Hb. auto.
    + pose proof (display_last_src (set_is_playing new_is_playing g1)) as [Hl Hi].
      destruct (display _) as [g2 line]. simpl in *. rewrite Hl, Hi. auto.
  - match goal with |- context [display ?x] =>
      pose proof (display_last_src x) as [Hl Hi]; destruct (display x) as [g5 line]
    end.
    simpl in *. rewrite Hl, Hi.
    unfold update_to_display. destruct (_ <=? _); simpl; auto.
  - match goal with |- context [display ?x] =>
      pose proof (display_last_src x) as [Hl Hi]; destruct (display x) as [g5 line]
    end.
    simpl in *. rewrite Hl, Hi.
    unfold update_to_display. destruct (_ <=? _); simpl; auto.
Qed.

(** C6. An update whose title, artist and playing flag are those of the
    last render writes no status line, whatever the art URL and the file
    system do; so of two updates in a row with the same title, artist and
    playing state, the second writes none. *)
Theorem noop_update faults pkill_ret player g fs :
  (Meta.title (metadata (state player)) = ls_title (last_src g) ->
   Meta.artist (metadata (state player)) = ls_artist (last_src g) ->
   playing_flag player = is_playing g ->
   run_cout (on_update_seleceted cache_path faults pkill_ret player g fs) = []) /\
  (forall faults' pkill_ret' player',
      Meta.title (metadata (state player'))
        = Meta.title (metadata (state player)) ->
      Meta.artist (metadata (state player'))
        = Meta.artist (metadata (state player)) ->
      playing_flag player' = playing_flag player ->
      let r := on_update_seleceted cache_path faults pkill_ret player g fs in
      run_cout (on_update_seleceted cache_path faults' pkill_ret' player'
                  (run_engine r) (run_files r)) = []).
Proof.
  assert (Hnoop : forall faults pkill_ret player g fs,
    Meta.title (metadata (state player)) = ls_title (last_src g) ->
    Meta.artist (metadata (state player)) = ls_artist (last_src g) ->
    playing_flag player = is_playing g ->
    run_cout (on_update_seleceted cache_path faults pkill_ret player g fs) = []).
  { clear. intros faults pkill_ret player g fs Ht Ha Hp.
    unfold on_update_seleceted. fold (playing_flag player).
    destruct (negb (String.eqb _ (ls_art_url (last_src g)))).
    - pose proof (update_cover_art_engine faults pkill_ret
        (Meta.art_url (metadata (state player))) g fs) as He.
      destruct (update_cover_art _ _ _ _ _ _) as [[g1 fs1] cerr].
      simpl in He. subst g1. simpl.
      rewrite Ht, Ha, Hp, !String.eqb_refl, Bool.eqb_reflx. reflexivity.
    - rewrite Ht, Ha, Hp, !String.eqb_refl, Bool.eqb_reflx. reflexivity. }
  split; [apply Hnoop|].
  intros faults' pkill_ret' player' Ht Ha Hp r.
  destruct (on_update_seleceted_remembers faults pkill_ret player g fs)
    as (Ht1 & Ha1 & Hp1).
  apply Hnoop; subst r; congruence.
Qed.







End Updates.



Lemma noop_update_witness :
  run_cout
    (on_update_seleceted Samples.home_cache Fs.no_faults 0
       (Samples.player "A" true)
       (run_engine (on_update_seleceted Samples.home_cache Fs.no_faults 0
                      (Samples.player "A" true) fresh ∅))
       (run_files (on_update_seleceted Samples.home_cache Fs.no_faults 0
                     (Samples.player "A" true) fresh ∅))) = [].
Proof.
  exact (proj2 (noop_update Samples.home_cache Fs.no_faults 0
                  (Samples.player "A" true) fresh ∅)
           Fs.no_faults 0 (Samples.player "A" true) eq_refl eq_refl eq_refl).
Defined.

End EngineFacts.

(** * Further properties of the code *)

(** ** Text encoder and escaped stream output *)

Section EncoderMore.
Import TextEncoder.

Lemma encode_spec_encode (s : string) : encode s = spec_encode s.
Proof. unfold encode. now rewrite encode_loop_spec. Qed.

Lemma spec_encode_append (a b : string) :
  spec_encode (a +:+ b) = spec_encode a +:+ spec_encode b.
Proof.
  induction a as [|c a IH]; [reflexivity|].
  rewrite append_cons. simpl. rewrite IH. now rewrite append_assoc.
Qed.

Lemma encode_append_helper (a b : string) :
  encode (a +:+ b) = encode a +:+ encode b.
Proof. rewrite !encode_spec_encode. apply spec_encode_append. Qed.

Lemma list_ascii_of_append (a b : string) :
  list_ascii_of_string (a +:+ b)
  = (list_ascii_of_string a ++ list_ascii_of_string b)%list.
Proof.
  induction a as [|c a IH]; [reflexivity|].
  rewrite append_cons. simpl. now rewrite IH.
Qed.

Lemma free_of_append (l : list ascii) (a b : string) :
  free_of l a -> free_of l b -> free_of l (a +:+ b).
Proof.
  intros Ha Hb c Hc. rewrite list_ascii_of_append in Hc.
  apply in_app_or in Hc as [Hc|Hc]; [now apply Ha | now apply Hb].
Qed.

Lemma free_of_empty (l : list ascii) : free_of l EmptyString.
Proof. intros c []. Qed.

(** A check of [free_of] that computes. *)
Lemma free_of_check (l : list ascii) (s : string) :
  forallb (fun x => negb (existsb (Ascii.eqb x) l)) (list_ascii_of_string s)
  = true ->
  free_of l s.
Proof.
  intros H c Hc Hl.
  rewrite forallb_forall in H. specialize (H c Hc).
  apply negb_true_iff in H.
  assert (Hex : existsb (Ascii.eqb c) l = true).
  { apply existsb_exists. exists c. split; [exact Hl | apply Ascii.eqb_refl]. }
  congruence.
Qed.

Lemma spec_replacement_markup_free (c : ascii) :
  free_of markup_bytes (spec_replacement c).
Proof.
  apply free_of_check.
  destruct c as [[] [] [] [] [] [] [] []]; reflexivity.
Qed.

Lemma encode_markup_free_helper (s : string) : free_of markup_bytes (encode s).
Proof.
  rewrite encode_spec_encode.
  induction s as [|c s IH]; [apply free_of_empty|].
  simpl. apply free_of_append; [apply spec_replacement_markup_free | exact IH].
Qed.

Lemma spec_replacement_length (c : ascii) :
  (1 <= String.length (spec_replacement c) <= 6)%nat.
Proof.
  destruct c as [[] [] [] [] [] [] [] []]; simpl; lia.
Qed.

(** X1. [encode] works byte by byte: the encoding of a concatenation is
    the concatenation of the encodings, so a text may be escaped in pieces
    (as [display] does with the parts of a window). *)
Theorem encode_append (a b : string) :
  encode (a +:+ b) = encode a +:+ encode b.
Proof.
  unfold encode. rewrite !encode_loop_spec, !append_empty_l.
  induction a as [|c a IH]; [reflexivity|].
  rewrite append_cons. simpl. rewrite IH. now rewrite append_assoc.
Qed.

(** X2. Whatever the input, the result of [encode] holds no double quote,
    apostrophe, angle bracket, newline, tab or carriage return: of the
    eight rewritten bytes only the ampersand (which starts the entities)
    occurs in it. *)
Theorem encode_markup_free (s : string) : free_of markup_bytes (encode s).
Proof.
  unfold encode. rewrite encode_loop_spec, append_empty_l.
  induction s as [|c s IH]; [intros x []|].
  simpl. intros x Hx. rewrite list_ascii_of_append in Hx.
  apply in_app_or in Hx as [Hx|Hx]; [|now apply IH].
  now apply (spec_replacement_markup_free c).
Qed.

(** X3. [encode] never shortens: every byte becomes between one and six
    bytes ([&quot;] and [&apos;] being the longest replacements). *)
Theorem encode_length (s : string) :
  (String.length s <= String.length (encode s) <= 6 * String.length s)%nat.
Proof.
  rewrite encode_spec_encode.
  induction s as [|c s IH]; simpl; [lia|].
  rewrite length_append. pose proof (spec_replacement_length c). lia.
Qed.

(** X4. Writing [EscapedString(s)] to a stream appends exactly what
    [encode] returns for [s]: the chunked writes of [operator<<] (safe
    runs flushed before each escape and once at the end) lose and
    duplicate nothing. *)
Theorem escaped_stream_is_encode (os s : string) :
  write_escaped os s = os +:+ encode s.
Proof.
  unfold write_escaped.
  pose proof (escaped_loop_spec s s EmptyString EmptyString os eq_refl) as Hloop.
  simpl in Hloop. rewrite Hloop.
  unfold encode. now rewrite encode_loop_spec.
Qed.

End EncoderMore.

(** ** Metadata getters *)

Section MetadataMore.
Import GLib Meta.

Lemma join_loop_concat (strv : list string) :
  forall todo i result,
    (i + todo = List.length strv)%nat ->
    join_loop strv (List.length strv) todo i result
    = result +:+ String.concat ", " (drop i strv).
Proof.
  induction todo as [|todo IH]; intros i result Hi.
  - simpl. rewrite drop_ge by lia. simpl. now rewrite append_empty_r.
  - destruct (lookup_lt_is_Some_2 strv i ltac:(lia)) as [x Hx].
    rewrite (drop_S _ _ _ Hx). simpl join_loop. rewrite Hx. simpl default.
    destruct (Nat.eqb_spec i (List.length strv - 1)) as [Hlast|Hmore]; simpl negb;
      cbv iota.
    + rewrite IH by lia. rewrite drop_ge by lia. simpl.
      now rewrite append_empty_r.
    + rewrite IH by lia.
      destruct (drop (S i) strv) as [|y rest] eqn:Hdrop.
      * apply (f_equal List.length) in Hdrop. rewrite length_drop in Hdrop.
        simpl in Hdrop. lia.
      * simpl. now rewrite !append_assoc.
Qed.

Lemma str_array_value_present (dict : gmap string GVariant) key strv :
  dict !! key = Some (VStringArray strv) ->
  metadata_get_str_array_value dict key = (String.concat ", " strv, []).
Proof.
  intros Hkey. unfold metadata_get_str_array_value, g_variant_lookup_value.
  rewrite Hkey. simpl. rewrite join_loop_concat by lia. reflexivity.
Qed.

(** X5. For a dictionary that holds a string array under the key,
    [metadata_get_str_array_value] returns its strings joined by a comma
    and a space, in order and with no separator after the last one (the
    empty array gives the empty string), and no glib check fails. *)
Theorem str_array_value_joined (dict : gmap string GVariant) key strv :
  dict !! key = Some (VStringArray strv) ->
  metadata_get_str_array_value dict key = (String.concat ", " strv, []).
Proof.
  intros Hkey. unfold metadata_get_str_array_value, g_variant_lookup_value.
  rewrite Hkey. simpl.
  rewrite (join_loop_concat strv (List.length strv) 0 EmptyString) by lia.
  reflexivity.
Qed.

Lemma str_array_value_joined_witness :
  metadata_get_str_array_value
    {[ "xesam:artist" := VStringArray ["Ann"; "Bob"; "Cy"] ]} "xesam:artist"
  = ("Ann, Bob, Cy", []).
Proof.
  exact (str_array_value_joined
           {[ "xesam:artist" := VStringArray ["Ann"; "Bob"; "Cy"] ]}
           "xesam:artist" ["Ann"; "Bob"; "Cy"] eq_refl).
Defined.

(** X6. [metadata_get_track_id] takes [mpris:trackid] when it is an object
    path, falls back to it when it is a plain string, and returns the
    empty string when the key is absent or holds a value of any other
    type. *)
Theorem track_id_fallback (dict : gmap string GVariant) :
  metadata_get_track_id dict
  = match dict !! "mpris:trackid" with
    | Some (VObjectPath s) => s
    | Some (VString s) => s
    | _ => EmptyString
    end.
Proof.
  unfold metadata_get_track_id, g_variant_lookup_value.
  destruct (dict !! "mpris:trackid") as [[n|n|s|s|l]|]; reflexivity.
Qed.

(** X7. With an artist array in the dictionary, [parse_metadata] fails no
    glib check and fills every field from its own key: the value when it
    has the type the getter asks for (unsigned 64-bit for the length, string
    for title, album, art URL and URL), the default when the key is absent
    or its value has another type, and the joined array for the artist. *)
Theorem parse_metadata_fields (dict : gmap string GVariant) strv :
  dict !! "xesam:artist" = Some (VStringArray strv) ->
  let str key :=
    match dict !! key with Some (VString s) => s | _ => EmptyString end in
  parse_metadata dict
  = ({| length := match dict !! "mpris:length" with
                  | Some (VUint64 n) => n
                  | _ => 0%Z
                  end;
        trackid := metadata_get_track_id dict;
        title := str "xesam:title";
        album := str "xesam:album";
        artist := String.concat ", " strv;
        art_url := str "mpris:artUrl";
        url := str "xesam:url" |}, []).
Proof.
  intros Hartist str. unfold parse_metadata.
  rewrite (str_array_value_present dict _ strv Hartist).
  assert (Hstr : forall key, metadata_get_str_value dict key = str key).
  { intros key. unfold metadata_get_str_value, g_variant_lookup_value, str.
    destruct (dict !! key) as [[n|n|s|s|l]|]; reflexivity. }
  rewrite !Hstr. f_equal. f_equal.
  unfold metadata_get_u64_value, g_variant_lookup_value.
  destruct (dict !! "mpris:length") as [[n|n|s|s|l]|]; reflexivity.
Qed.

Lemma parse_metadata_fields_witness :
  parse_metadata
    (<[ "xesam:artist" := VStringArray ["Ann"; "Bob"] ]>
       (<[ "xesam:title" := VString "Song" ]>
          {[ "mpris:length" := VInt64 5 ]}))
  = ({| length := 0; trackid := EmptyString; title := "Song";
        album := EmptyString; artist := "Ann, Bob";
        art_url := EmptyString; url := EmptyString |}, []).
Proof.
  exact (parse_metadata_fields
           (<[ "xesam:artist" := VStringArray ["Ann"; "Bob"] ]>
              (<[ "xesam:title" := VString "Song" ]>
                 {[ "mpris:length" := VInt64 5 ]}))
           ["Ann"; "Bob"] eq_refl).
Defined.

(** X8. [chnages(other).none()] is true exactly when the two metadata
    agree on length, track id, title, artist, art URL and URL: the album
    is compared by [chnages] but left out of [none], so a change of the
    album alone counts as no change. *)
Theorem changes_none_ignores_album (a b : Metadata) :
  (none (chnages a b) = true <->
   length a = length b /\ trackid a = trackid b /\ title a = title b /\
   artist a = artist b /\ art_url a = art_url b /\ url a = url b) /\
  (ch_album (chnages a b) = true <-> album a <> album b).
Proof.
  unfold none, chnages; simpl. split.
  - rewrite negb_true_iff, !orb_false_iff, !negb_false_iff.
    rewrite Z.eqb_eq, !String.eqb_eq.
    intuition congruence.
  - rewrite negb_true_iff, String.eqb_neq. split; congruence.
Qed.

End MetadataMore.

(** ** Player registry: identities, order and selection *)

Section RegistryMore.
Import Meta Registry.
Local Open Scope Z_scope.

Lemma exists_uid_false (l : list Player) (u : PlayerUID) :
  existsb (fun p => uid_eqb (uid p) u) l = false <->
  (forall p, p ∈ l -> uid p <> u).
Proof.
  split.
  - intros Hex p Hp Hu.
    assert (Ht : existsb (fun p => uid_eqb (uid p) u) l = true).
    { apply existsb_exists. exists p. split.
      - now apply list_elem_of_In.
      - now apply uid_eqb_eq. }
    congruence.
  - intros Hfresh. destruct (existsb _ l) eqn:Hex; [|reflexivity].
    apply existsb_exists in Hex as (p & Hp & Hu).
    apply uid_eqb_eq in Hu. apply list_elem_of_In in Hp.
    now destruct (Hfresh p Hp).
Qed.

Lemma find_entry_fresh pname m :
  find_entry pname m = None <-> fresh_name pname m.
Proof.
  unfold find_entry, fresh_name. rewrite list_find_None, Forall_forall.
  split; intros H p Hp; specialize (H p Hp); rewrite uid_eqb_eq in *; exact H.
Qed.

Lemma find_entry_head pname p rest idx :
  uid p = player_uid_of pname ->
  find_entry pname {| managed_players := p :: rest; selected_idx := idx |}
  = Some (0%nat, p).
Proof.
  intros Hp. unfold find_entry. apply list_find_Some.
  split; [reflexivity|]. split; [now apply uid_eqb_eq|]. intros j y _ Hj. lia.
Qed.

Lemma find_entry_appended (l : list Player) (p : Player) pname idx :
  uid p = player_uid_of pname ->
  (forall q, q ∈ l -> uid q <> player_uid_of pname) ->
  find_entry pname {| managed_players := l ++ [p]; selected_idx := idx |}
  = Some (List.length l, p).
Proof.
  intros Hp Hl. unfold find_entry. simpl. apply list_find_Some.
  split; [|split].
  - rewrite lookup_app_r by lia. now rewrite Nat.sub_diag.
  - apply uid_eqb_eq. exact Hp.
  - intros j y Hy Hj Habs. apply uid_eqb_eq in Habs.
    rewrite lookup_app_l in Hy by exact Hj.
    apply (Hl y); [eapply list_elem_of_lookup_2; eauto | exact Habs].
Qed.

Lemma select_at_uids i players players' effects :
  select_at i players = Returns (players', effects) ->
  uid <$> players' = uid <$> players.
Proof.
  unfold select_at, at_index.
  destruct (0 <=? i); [|discriminate].
  destruct (players !! Z.to_nat i) as [p|] eqn:Hp; [|discriminate].
  intros [= <- _]. rewrite list_fmap_insert. apply list_insert_id.
  rewrite list_lookup_fmap, Hp. reflexivity.
Qed.

Lemma add_keeps_distinct pname r m m' effects :
  distinct_uids m ->
  add_player_by_name pname r m = Returns (m', effects) ->
  distinct_uids m'.
Proof.
  unfold distinct_uids, add_player_by_name. intros Hm.
  destruct (existsb _ _) eqn:Hex; [intros [= <- _]; exact Hm|].
  destruct r as [message|st]; [discriminate|].
  set (player := {| uid := player_uid_of pname; state := st;
                    is_selected := false |}).
  assert (Hnew : NoDup (uid <$> (managed_players m ++ [player])%list)).
  { rewrite fmap_app. apply NoDup_app. split; [exact Hm|]. split.
    - intros u Hu Hin. apply list_elem_of_singleton in Hin. subst u.
      apply list_elem_of_fmap in Hu as (q & Hq & Hin).
      apply (proj1 (exists_uid_false _ _) Hex q Hin). now rewrite <- Hq.
    - apply NoDup_singleton. }
  destruct (selected_idx m =? NON_IDX).
  - destruct (select_at _ _) as [[players' effects']| |] eqn:Hsel;
      try discriminate.
    intros [= <- _]. simpl. now rewrite (select_at_uids _ _ _ _ Hsel).
  - intros [= <- _]. exact Hnew.
Qed.

Lemma vanished_keeps_distinct pname m m' effects :
  distinct_uids m ->
  on_name_vanished pname m = Returns (m', effects) ->
  distinct_uids m'.
Proof.
  unfold distinct_uids, on_name_vanished. intros Hm.
  destruct (find_entry pname m) as [[entry p]|]; [|intros [= <- _]; exact Hm].
  assert (Hdel : NoDup (uid <$> delete entry (managed_players m))).
  { rewrite list_fmap_delete.
    exact (sublist_NoDup _ _ Hm (sublist_delete _ _)). }
  cbv zeta.
  repeat match goal with
  | |- context [if ?b then _ else _] => destruct b
  end;
  try (intros [= <- _]; exact Hdel);
  destruct (select_at _ _) as [[players' effects']| |] eqn:Hsel;
    try discriminate;
    intros [= <- _]; simpl; now rewrite (select_at_uids _ _ _ _ Hsel).
Qed.

(** X9. In every registry state the program can reach, no two managed
    players have the same [PlayerUID]: the test at the head of
    [add_player_by_name] keeps duplicates out, and selecting or removing a
    player changes no identity. *)
Theorem reachable_distinct_uids (m : PlayerManager) :
  reachable m -> distinct_uids m.
Proof.
  induction 1 as [|pname r m m' effects _ IH Hadd|pname m m' effects _ IH Hvan].
  - apply NoDup_nil_2.
  - exact (add_keeps_distinct _ _ _ _ _ IH Hadd).
  - exact (vanished_keeps_distinct _ _ _ _ IH Hvan).
Qed.

Lemma reachable_distinct_uids_witness : distinct_uids Samples.registry_AB.
Proof. exact (reachable_distinct_uids _ reachable_registry_AB). Defined.

(** X10. A name whose [PlayerUID] is already managed is not added again:
    [add_player_by_name] leaves the registry as it is and prints
    [Should not exist!], without even trying to resolve the player (so
    it cannot throw). This holds in any registry state. *)
Theorem add_existing_ignored pname r (m : PlayerManager) (p : Player) :
  p ∈ managed_players m ->
  uid p = player_uid_of pname ->
  add_player_by_name pname r m
  = Returns (m, [call_display_print "Should not exist!"]).
Proof.
  intros Hp Hu. unfold add_player_by_name.
  destruct (existsb _ _) eqn:Hex; [reflexivity|].
  destruct (proj1 (exists_uid_false _ _) Hex p Hp Hu).
Qed.

Lemma add_existing_ignored_witness :
  add_player_by_name (Samples.dbus "A") (Unresolved "gone") Samples.registry_AB
  = Returns (Samples.registry_AB, [call_display_print "Should not exist!"]).
Proof.
  apply (add_existing_ignored (Samples.dbus "A") (Unresolved "gone")
           Samples.registry_AB (Samples.player "A" true)).
  - apply list_elem_of_here.
  - reflexivity.
Defined.

(** X11. The vanishing of a name that is not managed changes nothing: the
    registry stays as it is, no handler is called, and [Should exist!] is
    printed. *)
Theorem vanished_unknown_ignored pname (m : PlayerManager) :
  fresh_name pname m ->
  on_name_vanished pname m
  = Returns (m, [call_display_print "Should exist!"]).
Proof.
  intros Hfresh. unfold on_name_vanished.
  now rewrite (proj2 (find_entry_fresh pname m) Hfresh).
Qed.

Lemma fresh_C_in_AB : fresh_name (Samples.dbus "C") Samples.registry_AB.
Proof.
  intros p Hp. unfold Samples.registry_AB in Hp. simpl in Hp.
  repeat (apply elem_of_cons in Hp as [->|Hp]; [cbv; discriminate|]).
  inversion Hp.
Defined.

Lemma vanished_unknown_ignored_witness :
  on_name_vanished (Samples.dbus "C") Samples.registry_AB
  = Returns (Samples.registry_AB, [call_display_print "Should exist!"]).
Proof.
  exact (vanished_unknown_ignored (Samples.dbus "C") Samples.registry_AB
           fresh_C_in_AB).
Defined.

(** X12. In every registry state the program can reach, the selected
    player is the first of the sequence, that is the one managed for the
    longest time: [selected_player] returns it (nothing for an empty
    registry), and it carries the [is_selected] flag. *)
Theorem selected_is_first (m : PlayerManager) :
  reachable m ->
  selected_player m = Returns (head (managed_players m)) /\
  (forall p, head (managed_players m) = Some p -> is_selected p = true).
Proof.
  intros Hm. pose proof (reachable_head_selected m Hm) as Hh.
  unfold head_selected in Hh. unfold selected_player.
  destruct (managed_players m) as [|p rest].
  - rewrite Hh. split; [reflexivity | discriminate].
  - destruct Hh as (Hidx & Hp & _). rewrite Hidx. split; [reflexivity|].
    intros q [= <-]. exact Hp.
Qed.

Lemma selected_is_first_witness :
  selected_player Samples.registry_AB = Returns (Some (Samples.player "A" true)).
Proof.
  exact (proj1 (selected_is_first Samples.registry_AB reachable_registry_AB)).
Defined.

(** X13. When the selected (first) player of a reachable registry
    vanishes, the player behind it becomes the selected one and
    [on_select] is called with it, the others keeping their order; when
    it was the only player, the registry is empty again with
    [selected_idx] at [NON_IDX], and [on_empty] is called instead. *)
Theorem vanished_selected_promotes_next (m : PlayerManager) pname p rest :
  reachable m ->
  managed_players m = p :: rest ->
  uid p = player_uid_of pname ->
  on_name_vanished pname m
  = match rest with
    | [] => Returns (initial, [call_on_empty])
    | q :: rest' =>
        Returns ({| managed_players := select q :: rest'; selected_idx := 0 |},
                 [call_on_select (select q)])
    end.
Proof.
  intros Hm Hplayers Hp. pose proof (reachable_head_selected m Hm) as Hh.
  unfold head_selected in Hh. rewrite Hplayers in Hh.
  destruct Hh as (Hidx & Hsel & _).
  destruct m as [players idx]. simpl in *. subst players idx.
  unfold on_name_vanished. rewrite (find_entry_head pname p rest 0 Hp).
  cbv zeta. cbn [managed_players selected_idx]. rewrite Hsel.
  destruct rest as [|q rest']; reflexivity.
Qed.

Lemma vanished_selected_promotes_next_witness :
  on_name_vanished (Samples.dbus "A") Samples.registry_AB
  = Returns ({| managed_players := [Samples.player "B" true];
                selected_idx := 0 |},
             [call_on_select (Samples.player "B" true)]).
Proof.
  exact (vanished_selected_promotes_next Samples.registry_AB (Samples.dbus "A")
           (Samples.player "A" true) [Samples.player "B" false]
           reachable_registry_AB eq_refl eq_refl).
Defined.

(** X14. A player that appears under a new identity is put at the end of
    the sequence. It is selected, with a call of [on_select], only when
    the registry was empty; in a reachable registry that already manages
    players it stays unselected, no handler is called, and the selected
    player stays the same. *)
Theorem add_fresh_appends (m : PlayerManager) pname st :
  reachable m ->
  fresh_name pname m ->
  let player :=
    {| uid := player_uid_of pname; state := st; is_selected := false |} in
  add_player_by_name pname (Resolves st) m
  = match managed_players m with
    | [] =>
        Returns ({| managed_players := [select player]; selected_idx := 0 |},
                 [call_on_select (select player)])
    | _ :: _ =>
        Returns ({| managed_players := managed_players m ++ [player];
                    selected_idx := selected_idx m |}, [])
    end /\
  (managed_players m <> [] ->
   selected_player {| managed_players := managed_players m ++ [player];
                      selected_idx := selected_idx m |}
   = selected_player m).
Proof.
  intros Hm Hfresh player. pose proof (reachable_head_selected m Hm) as Hh.
  unfold head_selected in Hh. unfold add_player_by_name.
  rewrite (proj2 (exists_uid_false _ _) Hfresh).
  destruct m as [players idx]. simpl in *.
  destruct players as [|p rest].
  - rewrite Hh. split; [reflexivity | congruence].
  - destruct Hh as (-> & _). split; reflexivity.
Qed.

Lemma add_fresh_appends_witness :
  add_player_by_name (Samples.dbus "C")
    (Resolves (Samples.playing (Samples.track "Song" "Artist" EmptyString)))
    Samples.registry_AB
  = Returns ({| managed_players :=
                  [Samples.player "A" true; Samples.player "B" false;
                   Samples.player "C" false];
                selected_idx := 0 |}, []).
Proof.
  exact (proj1 (add_fresh_appends Samples.registry_AB (Samples.dbus "C")
                  (Samples.playing (Samples.track "Song" "Artist" EmptyString))
                  reachable_registry_AB fresh_C_in_AB)).
Defined.

(** X15. Appearing and vanishing cancel out: from a reachable registry, a
    player that appears under a new identity and vanishes again leaves
    the registry exactly as it was before, selection included. *)
Theorem add_then_vanished_restores (m : PlayerManager) pname st :
  reachable m ->
  fresh_name pname m ->
  exists m1 effects1 effects2,
    add_player_by_name pname (Resolves st) m = Returns (m1, effects1) /\
    on_name_vanished pname m1 = Returns (m, effects2).
Proof.
  intros Hm Hfresh. pose proof (reachable_head_selected m Hm) as Hh.
  unfold head_selected in Hh. unfold add_player_by_name.
  rewrite (proj2 (exists_uid_false _ _) Hfresh).
  destruct m as [players idx]. simpl in *.
  set (player := {| uid := player_uid_of pname; state := st;
                    is_selected := false |}).
  destruct players as [|p rest].
  - subst idx.
    exists {| managed_players := [select player]; selected_idx := 0 |},
           [call_on_select (select player)], [call_on_empty].
    split; [reflexivity|]. unfold on_name_vanished.
    rewrite (find_entry_head pname (select player) [] 0 eq_refl). reflexivity.
  - destruct Hh as (-> & Hp & _).
    exists {| managed_players := (p :: rest) ++ [player]; selected_idx := 0 |},
           [], [call_on_select p].
    split; [reflexivity|]. unfold on_name_vanished.
    rewrite (find_entry_appended (p :: rest) player pname 0 eq_refl Hfresh).
    cbv zeta. cbn [managed_players selected_idx is_selected].
    rewrite (delete_middle (p :: rest) []), app_nil_r.
    unfold select_at. simpl. now rewrite (select_selected p Hp).
Qed.

Lemma add_then_vanished_restores_witness :
  exists m1 effects1 effects2,
    add_player_by_name (Samples.dbus "C")
      (Resolves (Samples.playing (Samples.track "Song" "Artist" EmptyString)))
      Samples.registry_AB = Returns (m1, effects1) /\
    on_name_vanished (Samples.dbus "C") m1
    = Returns (Samples.registry_AB, effects2).
Proof.
  exact (add_then_vanished_restores Samples.registry_AB (Samples.dbus "C")
           (Samples.playing (Samples.track "Song" "Artist" EmptyString))
           reachable_registry_AB fresh_C_in_AB).
Defined.

End RegistryMore.

(** ** Substrings *)

Lemma substring_empty (n m : nat) : substring n m EmptyString = EmptyString.
Proof. destruct n, m; reflexivity. Qed.

Lemma substring_zero (n : nat) (s : string) : substring n 0 s = EmptyString.
Proof.
  revert n; induction s as [|c s IH]; intros n; [apply substring_empty|].
  destruct n as [|n]; [reflexivity|]. simpl. apply IH.
Qed.

Lemma substring_beyond (n m : nat) (s : string) :
  (String.length s <= n)%nat -> substring n m s = EmptyString.
Proof.
  revert n; induction s as [|c s IH]; intros n Hn; [apply substring_empty|].
  destruct n as [|n]; simpl in *; [lia|]. apply IH. lia.
Qed.

Lemma substring_clip (n m : nat) (s : string) :
  (String.length s - n <= m)%nat ->
  substring n m s = substring n (String.length s - n) s.
Proof.
  revert n m; induction s as [|c s IH]; intros n m Hm.
  - now rewrite !substring_empty.
  - destruct n as [|n]; simpl in *.
    + destruct m as [|m]; [lia|]. f_equal.
      rewrite (IH 0%nat m) by lia. now rewrite Nat.sub_0_r.
    + apply IH. exact Hm.
Qed.

Lemma substring_append (a b : string) (n m : nat) :
  substring n m (a +:+ b)
  = substring n m a
    +:+ substring (n - String.length a) (m - (String.length a - n)) b.
Proof.
  revert n m; induction a as [|c a IH]; intros n m.
  - rewrite append_empty_l, substring_empty, append_empty_l. simpl.
    now rewrite !Nat.sub_0_r.
  - rewrite append_cons. destruct n as [|n].
    + destruct m as [|m]; simpl.
      * now rewrite substring_zero.
      * rewrite (IH 0%nat m). simpl. now rewrite Nat.sub_0_r, append_cons.
    + simpl. apply IH.
Qed.

(** ** Text whose codepoints are single bytes *)

Section SingleByte.
Import TextEncoder GLib Engine.

Lemma get_In (s : string) (p : nat) (c : ascii) :
  String.get p s = Some c -> In c (list_ascii_of_string s).
Proof.
  revert p; induction s as [|x s IH]; intros p Hp; [destruct p; discriminate|].
  destruct p as [|p]; simpl in *.
  - left. congruence.
  - right. eauto.
Qed.

Lemma next_char_single_byte (s : string) (p : nat) :
  single_byte s -> g_utf8_next_char s p = S p.
Proof.
  intros Hs. unfold g_utf8_next_char, byte_at.
  destruct (String.get p s) as [c|] eqn:Hc.
  - rewrite (Hs c (get_In s p c Hc)). lia.
  - change (g_utf8_skip NUL) with 1%nat. lia.
Qed.

Lemma offset_to_pointer_single_byte (s : string) (p : nat) (offset : Z) :
  single_byte s -> (0 <= offset)%Z ->
  g_utf8_offset_to_pointer s p offset = (p + Z.to_nat offset)%nat.
Proof.
  intros Hs Ho. unfold g_utf8_offset_to_pointer.
  destruct (Z.ltb_spec 0 offset) as [Hpos|Hzero].
  - induction (Z.to_nat offset) as [|n IH]; simpl; [lia|].
    rewrite IH, next_char_single_byte by exact Hs. lia.
  - replace offset with 0%Z by lia. simpl. lia.
Qed.

Lemma utf8_substr_single_byte (s : string) (start len : Z) :
  single_byte s -> (0 <= start)%Z -> (0 <= len)%Z ->
  utf8_substr s start len = substring (Z.to_nat start) (Z.to_nat len) s.
Proof.
  intros Hs Hstart Hlen. unfold utf8_substr, string_view.
  rewrite !offset_to_pointer_single_byte by assumption.
  f_equal; lia.
Qed.

Lemma string_view_single_byte (s : string) (n : Z) :
  single_byte s -> (0 <= n)%Z ->
  string_view s 0 (g_utf8_offset_to_pointer s 0 n) = substring 0 (Z.to_nat n) s.
Proof.
  intros Hs Hn. unfold string_view.
  rewrite offset_to_pointer_single_byte by assumption. f_equal. lia.
Qed.

Lemma strlen_loop_single_byte (s : string) :
  single_byte s -> nul_free s ->
  forall fuel p,
    (String.length s <= p + fuel)%nat -> (p <= String.length s)%nat ->
    strlen_loop fuel s p = Z.of_nat (String.length s - p).
Proof.
  intros Hs Hnul. induction fuel as [|fuel IH]; intros p Hfuel Hp.
  - simpl. lia.
  - simpl strlen_loop. unfold byte_at.
    destruct (String.get p s) as [c|] eqn:Hc.
    + pose proof (Hnul c (get_In s p c Hc)) as Hne.
      destruct (Ascii.eqb_spec c NUL) as [->|_]; [congruence|].
      assert (Hlt : (p < String.length s)%nat).
      { destruct (Nat.lt_ge_cases p (String.length s)) as [Hlt|Hge]; [exact Hlt|].
        rewrite get_beyond in Hc by exact Hge. discriminate. }
      rewrite next_char_single_byte by exact Hs.
      rewrite IH by lia. lia.
    + change (Ascii.eqb NUL NUL) with true. cbv iota.
      destruct (Nat.lt_ge_cases p (String.length s)) as [Hlt|Hge]; [|lia].
      exfalso. clear -Hc Hlt.
      revert p Hc Hlt; induction s as [|x s IHs]; intros p Hc Hlt;
        simpl in *; [lia|].
      destruct p as [|p]; [discriminate|]. apply (IHs p Hc). lia.
Qed.

Lemma g_utf8_strlen_single_byte (s : string) :
  single_byte s -> nul_free s -> g_utf8_strlen s = Z.of_nat (String.length s).
Proof.
  intros Hs Hnul. unfold g_utf8_strlen.
  rewrite (strlen_loop_single_byte s Hs Hnul) by lia. lia.
Qed.

End SingleByte.

(** ** The scrolling window *)

Section Marquee.
Import TextEncoder GLib Engine.
Local Open Scope Z_scope.

Lemma substring_seperator_empty (a b : nat) :
  substring (S (S (S a))) b seperator = EmptyString.
Proof. simpl. apply substring_empty. Qed.

Lemma encode_seperator_piece (a b : nat) :
  encode (substring a b seperator) = substring a b seperator.
Proof.
  destruct a as [|[|[|a]]]; [| | |now rewrite substring_seperator_empty];
    destruct b as [|[|[|[|b]]]]; reflexivity.
Qed.

(** The window in three pieces: what is left of the raw text, the part of
    the separator in view, and the start of the raw text after it. *)
Lemma marquee_window_pieces (raw : string) (k : nat) :
  let L := String.length raw in
  encode (marquee_window raw k)
  = encode (substring k 50 raw)
    +:+ substring (k - L) (50 - (L - k)) seperator
    +:+ encode (substring (k - L - 3) (50 - (L - k) - (3 - (k - L))) raw).
Proof.
  intros L. unfold marquee_window, max_width.
  change (Z.to_nat 50) with 50%nat.
  rewrite substring_append, encode_append_helper.
  rewrite substring_append, encode_append_helper.
  rewrite encode_seperator_piece. reflexivity.
Qed.

Lemma display_body_marquee (g : OutputGenerator) (k : nat) (os : string) :
  needs_scrolling g = true ->
  single_byte (to_display g) ->
  to_display_utf8_len g = Z.of_nat (String.length (to_display g)) ->
  display_offset g = Z.of_nat k ->
  (k <= String.length (to_display g) + 2)%nat ->
  display_body g os = (g, os +:+ encode (marquee_window (to_display g) k)).
Proof.
  intros Hn Hs HL Ho Hk.
  rewrite marquee_window_pieces. cbv zeta.
  set (raw := to_display g) in *. set (L := String.length raw) in *.
  unfold display_body. fold raw. rewrite Hn, Ho, HL. simpl negb. cbv iota.
  unfold max_width.
  destruct (Z.ltb_spec (Z.of_nat k) (Z.of_nat L)) as [Hlt|Hge].
  - destruct (Z.of_nat L - Z.of_nat k >=? 50) eqn:Hrem.
    + apply Z.geb_le in Hrem.
      rewrite write_escaped_encode, utf8_substr_single_byte by (try exact Hs; lia).
      rewrite Nat2Z.id. change (Z.to_nat 50) with 50%nat.
      replace (50 - (L - k))%nat with 0%nat by lia.
      rewrite !substring_zero. change (encode EmptyString) with EmptyString.
      now rewrite !append_empty_r.
    + rewrite Z.geb_leb in Hrem. apply Z.leb_gt in Hrem.
      rewrite write_escaped_encode, utf8_substr_single_byte by (try exact Hs; lia).
      rewrite Nat2Z.id.
      replace (Z.to_nat (Z.of_nat L - Z.of_nat k)) with (L - k)%nat by lia.
      rewrite (substring_clip k 50 raw) by (fold L; lia). fold L.
      replace (k - L)%nat with 0%nat by lia.
      replace (50 - (Z.of_nat L - Z.of_nat k)) with (Z.of_nat (50 - (L - k)))
        by lia.
      destruct (Z.leb_spec (Z.of_nat (50 - (L - k))) 3) as [Hlo|Hlo].
      * rewrite write_escaped_encode, Nat2Z.id.
        change seperator with " ~ ". rewrite encode_seperator_piece.
        replace (50 - (L - k) - (3 - 0))%nat with 0%nat by lia.
        rewrite substring_zero. change (encode EmptyString) with EmptyString.
        now rewrite append_empty_r, append_assoc.
      * rewrite !write_escaped_encode, string_view_single_byte
          by (try exact Hs; lia).
        rewrite (substring_clip 0 (50 - (L - k)) seperator) by (simpl; lia).
        change (substring 0 (String.length seperator - 0) seperator) with " ~ ".
        replace (Z.to_nat (Z.of_nat (50 - (L - k)) - 3))
          with (50 - (L - k) - (3 - 0))%nat by lia.
        change (0 - 3)%nat with 0%nat.
        now rewrite !append_assoc.
  - replace (Z.of_nat k - Z.of_nat L >? 2) with false
      by (symmetry; rewrite Z.gtb_ltb; apply Z.ltb_ge; lia).
    rewrite write_escaped_encode, string_view_single_byte by (try exact Hs; lia).
    rewrite (substring_beyond k 50 raw) by (fold L; lia).
    change (encode EmptyString) with EmptyString. rewrite append_empty_l.
    replace (Z.to_nat (Z.of_nat k - Z.of_nat L)) with (k - L)%nat by lia.
    replace (50 - (L - k))%nat with 50%nat by lia.
    rewrite (substring_clip (k - L) 50 seperator) by (simpl; lia).
    replace (Z.to_nat (3 - (Z.of_nat k - Z.of_nat L)))
      with (String.length seperator - (k - L))%nat by (simpl; lia).
    replace (Z.to_nat (50 - (3 - (Z.of_nat k - Z.of_nat L))))
      with (50 - (3 - (k - L)))%nat by lia.
    replace (k - L - 3)%nat with 0%nat by lia.
    now rewrite !append_assoc.
Qed.

Lemma display_marquee (g : OutputGenerator) (k : nat) :
  needs_scrolling g = true ->
  single_byte (to_display g) ->
  to_display_utf8_len g = Z.of_nat (String.length (to_display g)) ->
  display_offset g = Z.of_nat k ->
  (k <= String.length (to_display g) + 2)%nat ->
  display g
  = (g, window_line (is_playing g)
          (encode (marquee_window (to_display g) k))).
Proof.
  intros Hn Hs HL Ho Hk. unfold display.
  rewrite (display_body_marquee g k _ Hn Hs HL Ho Hk). f_equal.
  unfold window_line, display_print_line. now rewrite !append_assoc.
Qed.

(** Checks of [single_byte] and [nul_free] that compute. *)
Lemma single_byte_check (s : string) :
  forallb (fun c => Nat.eqb (g_utf8_skip c) 1) (list_ascii_of_string s) = true ->
  single_byte s.
Proof.
  intros H c Hc. rewrite forallb_forall in H.
  now apply Nat.eqb_eq, H.
Qed.

Lemma nul_free_check (s : string) :
  forallb (fun c => negb (Ascii.eqb c NUL)) (list_ascii_of_string s) = true ->
  nul_free s.
Proof.
  intros H c Hc ->. rewrite forallb_forall in H.
  specialize (H NUL Hc). discriminate.
Qed.

Lemma single_byte_append (a b : string) :
  single_byte a -> single_byte b -> single_byte (a +:+ b).
Proof.
  intros Ha Hb c Hc. rewrite list_ascii_of_append in Hc.
  apply in_app_or in Hc as [Hc|Hc]; auto.
Qed.

Lemma nul_free_append (a b : string) :
  nul_free a -> nul_free b -> nul_free (a +:+ b).
Proof.
  intros Ha Hb c Hc. rewrite list_ascii_of_append in Hc.
  apply in_app_or in Hc as [Hc|Hc]; auto.
Qed.

Lemma combined_length_single_byte (title artist : string) :
  single_byte title -> nul_free title ->
  single_byte artist -> nul_free artist ->
  combined_length title artist
  = Z.of_nat (String.length
                (title +:+ separator_for title artist +:+ artist)).
Proof.
  intros Hst Hnt Hsa Hna.
  unfold combined_length, separator_for.
  rewrite !g_utf8_strlen_single_byte by assumption.
  rewrite !length_append.
  destruct (negb (string_empty title) && negb (string_empty artist)); simpl;
    lia.
Qed.

(** X16. For a scrolling text whose codepoints are single bytes, [display]
    at scroll offset [k] (up to the end of the separator) writes the
    escaped 50 bytes that start at position [k] of the raw text followed
    by the separator and the raw text again, and leaves the engine as it
    is: the tail of the text, the separator and the head of the text are
    stitched without gap or overlap. *)
Theorem marquee_window_rendered (g : OutputGenerator) (k : nat) :
  needs_scrolling g = true ->
  single_byte (to_display g) ->
  to_display_utf8_len g = Z.of_nat (String.length (to_display g)) ->
  display_offset g = Z.of_nat k ->
  (k <= String.length (to_display g) + 2)%nat ->
  display g
  = (g, window_line (is_playing g)
          (encode (marquee_window (to_display g) k))).
Proof.
  intros Hn Hs HL Ho Hk. unfold display.
  rewrite (display_body_marquee g k _ Hn Hs HL Ho Hk). f_equal.
  unfold window_line, display_print_line. now rewrite !append_assoc.
Qed.

Lemma marquee_window_rendered_witness :
  (display (set_display_offset 51
              (update_to_display Samples.text52 EmptyString fresh))).2
  = window_line false "P ~ 0123456789&lt;bcdefghijklmnopqrstuvwxyzABCDEFGHIJ".
Proof.
  rewrite (marquee_window_rendered
             (set_display_offset 51
                (update_to_display Samples.text52 EmptyString fresh))
             51 ltac:(vm_compute; reflexivity)
             (single_byte_check Samples.text52 ltac:(vm_compute; reflexivity))
             ltac:(vm_compute; reflexivity) ltac:(vm_compute; reflexivity)
             ltac:(vm_compute; lia)).
  vm_compute. reflexivity.
Defined.

(** X17. After [update_to_display] of a title and an artist of single-byte
    codepoints whose text is longer than 50, the [n]-th timer tick (for
    [n] up to the length of the text plus 2) writes the window of the
    marquee scrolled by [n] places: the ticks move the text one codepoint
    at a time through the separator and back to its start. *)
Theorem ticks_scroll_marquee (title artist : string) (g0 : OutputGenerator)
    (n : nat) :
  let raw := title +:+ separator_for title artist +:+ artist in
  single_byte title -> nul_free title ->
  single_byte artist -> nul_free artist ->
  display_offset g0 = 0 ->
  50 < Z.of_nat (String.length raw) ->
  Z.of_nat (String.length raw) + 3 < 2 ^ 64 ->
  (1 <= n <= String.length raw + 2)%nat ->
  tick_output n (update_to_display title artist g0)
  = [window_line (is_playing g0) (encode (marquee_window raw n))].
Proof.
  intros raw Hst Hnt Hsa Hna Ho Hlong H64 Hn.
  pose proof (combined_length_single_byte title artist Hst Hnt Hsa Hna) as Hlen.
  fold raw in Hlen.
  assert (Hg : update_to_display title artist g0
               = {| to_display := raw;
                    to_display_utf8_len := Z.of_nat (String.length raw);
                    needs_scrolling := true;
                    display_offset := 0;
                    is_playing := is_playing g0;
                    last_src := last_src g0 |}).
  { unfold update_to_display. fold (combined_length title artist).
    fold (separator_for title artist). rewrite Hlen.
    replace (Z.of_nat (String.length raw) <=? max_width) with false
      by (symmetry; apply Z.leb_gt; unfold max_width; lia).
    now rewrite Ho. }
  rewrite Hg. set (g := {| to_display := raw |}).
  assert (Hraw : single_byte raw).
  { unfold raw, separator_for. repeat apply single_byte_append; try assumption.
    destruct (_ && _); apply single_byte_check; reflexivity. }
  unfold tick_output.
  rewrite after_ticks_offset by (simpl; try reflexivity; lia).
  unfold scoll. simpl needs_scrolling. simpl negb. cbv iota.
  simpl display_offset. rewrite set_display_offset_twice.
  unfold Registry.size_t. rewrite Z.mod_small by lia.
  replace (Z.of_nat (n - 1) + 1) with (Z.of_nat n) by lia.
  rewrite (display_marquee (set_display_offset (Z.of_nat n) g) n)
    by (simpl; try reflexivity; try exact Hraw; lia).
  reflexivity.
Qed.

Lemma ticks_scroll_marquee_witness :
  tick_output 53
    (update_to_display Samples.long_title Samples.long_artist fresh)
  = [window_line false
       "and ~ The Quite Long Title Of A Song &lt;Live &amp; Loud&gt;"].
Proof.
  rewrite (ticks_scroll_marquee Samples.long_title Samples.long_artist fresh 53
             (single_byte_check Samples.long_title
                ltac:(vm_compute; reflexivity))
             (nul_free_check Samples.long_title ltac:(vm_compute; reflexivity))
             (single_byte_check Samples.long_artist
                ltac:(vm_compute; reflexivity))
             (nul_free_check Samples.long_artist ltac:(vm_compute; reflexivity))
             ltac:(vm_compute; reflexivity) ltac:(vm_compute; reflexivity)
             ltac:(vm_compute; reflexivity) ltac:(vm_compute; lia)).
  vm_compute. reflexivity.
Defined.

End Marquee.

(** ** Updates of the selected player *)

Section UpdatesMore.
Import TextEncoder GLib Meta Registry Engine.
Local Open Scope Z_scope.

Variable cache_path : string.

(** The engine with a new art URL recorded, as [update_cover_art] leaves
    it. *)
Lemma art_url_recorded faults pkill_ret player g fs :
  exists g1 fs1 cerr,
    (if negb (String.eqb (Meta.art_url (metadata (state player)))
                (ls_art_url (last_src g)))
     then update_cover_art cache_path faults pkill_ret
            (Meta.art_url (metadata (state player))) g fs
     else (g, fs, [])) = (g1, fs1, cerr) /\
    to_display g1 = to_display g /\
    to_display_utf8_len g1 = to_display_utf8_len g /\
    needs_scrolling g1 = needs_scrolling g /\
    display_offset g1 = display_offset g /\
    is_playing g1 = is_playing g /\
    ls_title (last_src g1) = ls_title (last_src g) /\
    ls_artist (last_src g1) = ls_artist (last_src g) /\
    ls_art_url (last_src g1) = Meta.art_url (metadata (state player)).
Proof.
  destruct (String.eqb_spec (Meta.art_url (metadata (state player)))
              (ls_art_url (last_src g))) as [Heq|Hne]; simpl negb; cbv iota.
  - exists g, fs, []. rewrite Heq. repeat split; reflexivity.
  - pose proof (update_cover_art_engine cache_path faults pkill_ret
                  (Meta.art_url (metadata (state player))) g fs) as He.
    destruct (update_cover_art _ _ _ _ _ _) as [[g1 fs1] cerr].
    simpl in He. subst g1. do 3 eexists. split; [reflexivity|].
    repeat split; reflexivity.
Qed.

Lemma display_static (g : OutputGenerator) :
  needs_scrolling g = false ->
  display g = (g, window_line (is_playing g) (to_display g)).
Proof.
  intros Hn. unfold display, display_body. rewrite Hn. simpl. f_equal.
  unfold window_line, display_print_line. now rewrite !append_assoc.
Qed.

(** X18. When the title or the artist differs from the last render and
    the new text fits the width, the update writes exactly one line, the
    escaped title, the separator (if both are non-empty) and the escaped
    artist, in italics unless the player is playing; scrolling is off and
    the scroll offset is back at 0. The art URL and the file system play
    no part in it. *)
Theorem update_renders_static faults pkill_ret player g fs :
  let title := Meta.title (metadata (state player)) in
  let artist := Meta.artist (metadata (state player)) in
  let r := on_update_seleceted cache_path faults pkill_ret player g fs in
  (ls_title (last_src g) <> title \/ ls_artist (last_src g) <> artist) ->
  combined_length title artist <= 50 ->
  run_cout r
  = [window_line (playing_flag player)
       (encode title +:+ separator_for title artist +:+ encode artist)] /\
  needs_scrolling (run_engine r) = false /\
  display_offset (run_engine r) = 0 /\
  is_playing (run_engine r) = playing_flag player.
Proof.
  intros title artist r Hdiff Hlen. subst r. unfold on_update_seleceted.
  fold title artist (playing_flag player).
  destruct (art_url_recorded faults pkill_ret player g fs)
    as (g1 & fs1 & cerr & -> & _ & _ & _ & _ & _ & Ht & Ha & _).
  rewrite Ht, Ha.
  replace (String.eqb (ls_title (last_src g)) title
           && String.eqb (ls_artist (last_src g)) artist) with false.
  2:{ symmetry. apply andb_false_iff.
      destruct Hdiff as [H|H]; [left|right]; now apply String.eqb_neq. }
  rewrite display_static.
  - simpl. unfold update_to_display.
    fold (combined_length title artist) (separator_for title artist).
    replace (combined_length title artist <=? max_width) with true
      by (symmetry; apply Z.leb_le; exact Hlen).
    simpl. auto.
  - simpl. unfold update_to_display.
    fold (combined_length title artist).
    replace (combined_length title artist <=? max_width) with true
      by (symmetry; apply Z.leb_le; exact Hlen).
    reflexivity.
Qed.

(** X19. When title and artist are those of the last render and only the
    playing flag differs, the update writes exactly one line, whether the
    text is static or scrolls, and the text, its length and the scrolling
    mode stay as they are. For a static text the line is the stored text
    again with the italics switched. For a scrolling text of single-byte
    codepoints, at a scroll offset [k] within the cycle, the line is the
    window at [k] again with the italics switched. In both cases the
    scroll offset is not advanced. *)
Theorem update_toggles_playing faults pkill_ret player g fs :
  let r := on_update_seleceted cache_path faults pkill_ret player g fs in
  Meta.title (metadata (state player)) = ls_title (last_src g) ->
  Meta.artist (metadata (state player)) = ls_artist (last_src g) ->
  playing_flag player <> is_playing g ->
  List.length (run_cout r) = 1%nat /\
  to_display (run_engine r) = to_display g /\
  to_display_utf8_len (run_engine r) = to_display_utf8_len g /\
  needs_scrolling (run_engine r) = needs_scrolling g /\
  is_playing (run_engine r) = playing_flag player /\
  (needs_scrolling g = false ->
   run_cout r = [window_line (playing_flag player) (to_display g)] /\
   display_offset (run_engine r) = display_offset g) /\
  (forall k : nat,
      needs_scrolling g = true ->
      single_byte (to_display g) ->
      to_display_utf8_len g = Z.of_nat (String.length (to_display g)) ->
      display_offset g = Z.of_nat k ->
      (k <= String.length (to_display g) + 2)%nat ->
      run_cout r
      = [window_line (playing_flag player)
           (encode (marquee_window (to_display g) k))] /\
      display_offset (run_engine r) = display_offset g).
Proof.
  intros r Ht Ha Hflag. subst r. unfold on_update_seleceted.
  fold (playing_flag player).
  destruct (art_url_recorded faults pkill_ret player g fs)
    as (g1 & fs1 & cerr & -> & Htd & Hlen & Hn1 & Ho1 & Hp1 & Ht1 & Ha1 & _).
  rewrite Ht1, Ha1, Ht, Ha, !String.eqb_refl, Hp1. simpl andb. cbv iota.
  replace (Bool.eqb (is_playing g) (playing_flag player)) with false
    by (symmetry; apply Bool.eqb_false_iff; congruence).
  simpl negb. cbv iota.
  set (g' := set_is_playing (playing_flag player) g1).
  assert (Hg' : to_display g' = to_display g /\
                to_display_utf8_len g' = to_display_utf8_len g /\
                needs_scrolling g' = needs_scrolling g /\
                display_offset g' = display_offset g /\
                is_playing g' = playing_flag player)
    by (subst g'; simpl; auto).
  destruct Hg' as (Hd1 & Hd2 & Hd3 & Hd4 & Hd5).
  pose proof (display_frame g') as Hframe.
  destruct (display g') as [g2 line] eqn:Hdisp.
  cbn [run_engine run_cout fst] in *.
  split; [reflexivity|].
  split; [destruct Hframe as [-> | ->]; simpl; exact Hd1|].
  split; [destruct Hframe as [-> | ->]; simpl; exact Hd2|].
  split; [destruct Hframe as [-> | ->]; simpl; exact Hd3|].
  split; [destruct Hframe as [-> | ->]; simpl; exact Hd5|].
  split.
  - intros Hn. rewrite display_static in Hdisp by congruence.
    injection Hdisp as <- <-. rewrite ?Htd, ?Hd1, ?Hd4, ?Hd5. auto.
  - intros k Hn Hs HL Ho Hk. unfold display in Hdisp.
    rewrite (display_body_marquee g' k) in Hdisp
      by (rewrite ?Hd1, ?Hd2, ?Hd3, ?Hd4; assumption).
    injection Hdisp as <- <-. rewrite ?Htd, ?Hd1, ?Hd4, ?Hd5.
    split; [|reflexivity].
    f_equal. unfold window_line, display_print_line.
    now rewrite !append_assoc.
Qed.

Lemma after_ticks_static (g : OutputGenerator) (k : nat) :
  needs_scrolling g = false -> after_ticks k g = g.
Proof.
  intros Hn. induction k as [|k IH]; [reflexivity|].
  unfold after_ticks in *. simpl Nat.iter. rewrite IH.
  unfold scoll. now rewrite Hn.
Qed.

Lemma tick_output_static (g : OutputGenerator) (n : nat) :
  needs_scrolling g = false -> tick_output n g = [].
Proof.
  intros Hn. unfold tick_output. rewrite after_ticks_static by exact Hn.
  unfold scoll. now rewrite Hn.
Qed.

(** X20. While [needs_scrolling] is off, timer ticks do nothing at all:
    any number of them leaves the engine unchanged and writes no line. *)
Theorem ticks_idle_when_static (g : OutputGenerator) (n : nat) :
  needs_scrolling g = false ->
  after_ticks n g = g /\ tick_output n g = [].
Proof.
  intros Hn.
  assert (Hscoll : scoll g = (g, [])) by (unfold scoll; now rewrite Hn).
  assert (Hafter : forall k, after_ticks k g = g).
  { induction k as [|k IH]; [reflexivity|].
    unfold after_ticks in *. simpl Nat.iter. rewrite IH. now rewrite Hscoll. }
  split; [apply Hafter|]. unfold tick_output. rewrite Hafter.
  now rewrite Hscoll.
Qed.

(** An update with the title, artist and playing flag of the last render
    writes nothing. *)
Lemma update_same_content_silent faults pkill_ret player g fs :
  Meta.title (metadata (state player)) = ls_title (last_src g) ->
  Meta.artist (metadata (state player)) = ls_artist (last_src g) ->
  playing_flag player = is_playing g ->
  run_cout (on_update_seleceted cache_path faults pkill_ret player g fs) = [].
Proof.
  intros Ht Ha Hp. unfold on_update_seleceted. fold (playing_flag player).
  destruct (art_url_recorded faults pkill_ret player g fs)
    as (g1 & fs1 & cerr & -> & _ & _ & _ & _ & Hp1 & Ht1 & Ha1 & _).
  rewrite Ht1, Ha1, Ht, Ha, Hp, Hp1, !String.eqb_refl, Bool.eqb_reflx.
  reflexivity.
Qed.

(** X21. [on_empty] writes the empty status line and switches scrolling
    off, so that ticks are silent afterwards, but it keeps the text and
    the last rendered title, artist and playing flag. Hence when a player
    with that same title and artist is selected next, nothing is written
    if its playing flag is the same (the bar keeps the empty line), and if
    the flag differs the stored text is written as a static one: for a
    text that was scrolling this is the whole raw text, not escaped. *)
Theorem empty_keeps_last_render (g : OutputGenerator) fs :
  let e := on_empty g fs in
  run_cout e = [display_print_line EmptyString] /\
  (forall n, tick_output n (run_engine e) = []) /\
  (forall faults pkill_ret player fs',
      Meta.title (metadata (state player)) = ls_title (last_src g) ->
      Meta.artist (metadata (state player)) = ls_artist (last_src g) ->
      let r := on_update_seleceted cache_path faults pkill_ret player
                 (run_engine e) fs' in
      (playing_flag player = is_playing g -> run_cout r = []) /\
      (playing_flag player <> is_playing g ->
       run_cout r = [window_line (playing_flag player) (to_display g)])).
Proof.
  intros e. split; [reflexivity|]. split.
  - intros n. now apply tick_output_static.
  - intros faults pkill_ret player fs' Ht Ha r. split.
    + intros Hp. now apply update_same_content_silent.
    + intros Hp. subst r. unfold on_update_seleceted.
      fold (playing_flag player).
      destruct (art_url_recorded faults pkill_ret player (run_engine e) fs')
        as (g1 & fs1 & cerr & -> & Htd & _ & Hn1 & _ & Hp1 & Ht1 & Ha1 & _).
      simpl in *.
      rewrite Ht1, Ha1, Ht, Ha, !String.eqb_refl, Hp1. simpl andb. cbv iota.
      replace (Bool.eqb (is_playing g) (playing_flag player)) with false
        by (symmetry; apply Bool.eqb_false_iff; congruence).
      simpl negb. cbv iota.
      rewrite display_static by (simpl; congruence).
      simpl. now rewrite Htd.
Qed.

Lemma In_substring (a b : nat) (s : string) (c : ascii) :
  In c (list_ascii_of_string (substring a b s)) ->
  In c (list_ascii_of_string s).
Proof.
  revert a b; induction s as [|x s IH]; intros a b Hc.
  - now rewrite substring_empty in Hc.
  - destruct a as [|a]; simpl in Hc.
    + destruct b as [|b]; [destruct Hc|]. simpl in Hc.
      destruct Hc as [Hc|Hc]; [left; exact Hc | right; eauto].
    + right. eauto.
Qed.

Lemma free_of_substring (l : list ascii) (a b : nat) (s : string) :
  free_of l s -> free_of l (substring a b s).
Proof. intros Hs c Hc. apply Hs. eapply In_substring; eauto. Qed.

Lemma free_of_seperator : free_of markup_bytes seperator.
Proof. apply free_of_check. reflexivity. Qed.

(** What [display] writes between the opening and the closing of the line
    holds no markup byte, provided a static text is stored escaped. *)
Lemma display_body_escaped (g : OutputGenerator) (os : string) :
  (needs_scrolling g = false -> free_of markup_bytes (to_display g)) ->
  exists w,
    (display_body g os).2 = os +:+ w /\ free_of markup_bytes w.
Proof.
  intros Hstatic. unfold display_body.
  destruct (needs_scrolling g); simpl negb; cbv iota.
  2:{ exists (to_display g). split; [reflexivity | now apply Hstatic]. }
  repeat match goal with
  | |- context [if ?b then _ else _] => destruct b
  end; cbn [snd]; rewrite ?write_escaped_encode.
  - eexists. split; [reflexivity | apply encode_markup_free_helper].
  - eexists. split; [apply append_assoc|].
    apply free_of_append; apply encode_markup_free_helper.
  - eexists. split; [rewrite !append_assoc; reflexivity|].
    apply free_of_append; [apply encode_markup_free_helper|].
    apply free_of_append;
      [apply free_of_seperator | apply encode_markup_free_helper].
  - eexists. split; [reflexivity | apply encode_markup_free_helper].
  - eexists. split; [apply append_assoc|].
    apply free_of_append; [|apply encode_markup_free_helper].
    apply free_of_substring, free_of_seperator.
Qed.

Lemma display_escaped (g : OutputGenerator) :
  (needs_scrolling g = false -> free_of markup_bytes (to_display g)) ->
  exists w,
    (display g).2 = window_line (is_playing g) w /\ free_of markup_bytes w.
Proof.
  intros Hstatic. unfold display.
  destruct (display_body_escaped g
    ("{" +:+ dquote +:+ "text" +:+ dquote +:+ ":" +:+ dquote
     +:+ (if negb (is_playing g) then "<i>" else EmptyString)) Hstatic)
    as (w & Hw & Hfree).
  destruct (display_body g _) as [g1 os1]. simpl in *. subst os1.
  exists w. split; [|exact Hfree].
  unfold window_line, display_print_line. now rewrite !append_assoc.
Qed.

(** X22. Every line a timer tick writes, and every line an update writes
    for a changed title or artist, is the opening of the status line
    followed by the text (in italics unless playing) and the closing,
    where the text holds no
    double quote, apostrophe, angle bracket, newline, tab or carriage
    return of its own: what comes from the title and the artist is always
    escaped, whether the text is static or a scrolling window, and
    whatever bytes they hold. *)
Theorem rendered_text_escaped :
  (forall g line,
      In line (scoll g).2 ->
      exists w, line = window_line (is_playing g) w /\
                free_of markup_bytes w) /\
  (forall faults pkill_ret player g fs line,
      (ls_title (last_src g) <> Meta.title (metadata (state player)) \/
       ls_artist (last_src g) <> Meta.artist (metadata (state player))) ->
      In line (run_cout
                 (on_update_seleceted cache_path faults pkill_ret player g fs)) ->
      exists w, line = window_line (playing_flag player) w /\
                free_of markup_bytes w).
Proof.
  split.
  - intros g line. unfold scoll.
    destruct (needs_scrolling g) eqn:Hn; simpl negb; cbv iota; [|intros []].
    pose proof (display_escaped
                  (set_display_offset (size_t (display_offset g + 1)) g)) as He.
    destruct (display _) as [g1 l1]. simpl in *.
    intros [<-|[]]. apply He. congruence.
  - intros faults pkill_ret player g fs line Hdiff.
    unfold on_update_seleceted. fold (playing_flag player).
    destruct (art_url_recorded faults pkill_ret player g fs)
      as (g1 & fs1 & cerr & -> & _ & _ & _ & _ & _ & Ht & Ha & _).
    rewrite Ht, Ha.
    replace (String.eqb (ls_title (last_src g))
               (Meta.title (metadata (state player)))
             && String.eqb (ls_artist (last_src g))
                  (Meta.artist (metadata (state player)))) with false.
    2:{ symmetry. apply andb_false_iff.
        destruct Hdiff as [H|H]; [left|right]; now apply String.eqb_neq. }
    match goal with |- context [display ?x] =>
      pose proof (display_escaped x) as He; destruct (display x) as [g5 l5]
    end.
    simpl in *. intros [<-|[]]. apply He.
    unfold update_to_display. destruct (_ <=? _); simpl; [|discriminate].
    intros _. apply free_of_append; [apply encode_markup_free_helper|].
    apply free_of_append; [|apply encode_markup_free_helper].
    destruct (_ && _); [apply free_of_seperator | apply free_of_empty].
Qed.

Lemma engine_invariant_ext (g g1 : OutputGenerator) :
  to_display g1 = to_display g ->
  to_display_utf8_len g1 = to_display_utf8_len g ->
  needs_scrolling g1 = needs_scrolling g ->
  display_offset g1 = display_offset g ->
  ls_title (last_src g1) = ls_title (last_src g) ->
  ls_artist (last_src g1) = ls_artist (last_src g) ->
  engine_invariant g -> engine_invariant g1.
Proof.
  unfold engine_invariant. intros -> -> -> -> -> ->. auto.
Qed.

Lemma engine_invariant_display (g : OutputGenerator) :
  engine_invariant g -> engine_invariant (display g).1.
Proof.
  intros Hg. destruct (display_frame g) as [-> | ->]; [exact Hg|].
  unfold engine_invariant in *. simpl.
  destruct Hg as (Hlen & Htext & Hscroll). repeat split; auto.
  - now apply Hscroll.
  - lia.
  - destruct (Hscroll H) as [Hw _]. unfold max_width in Hw. lia.
Qed.

Lemma engine_invariant_update (title artist : string) (g : OutputGenerator) :
  ls_title (last_src g) = title ->
  ls_artist (last_src g) = artist ->
  display_offset g = 0 ->
  engine_invariant (update_to_display title artist g).
Proof.
  intros Ht Ha Ho. unfold engine_invariant, update_to_display.
  fold (combined_length title artist) (separator_for title artist).
  destruct (Z.leb_spec (combined_length title artist) max_width) as [Hle|Hgt];
    simpl; rewrite Ht, Ha.
  - replace (combined_length title artist <=? max_width) with true
      by (symmetry; now apply Z.leb_le).
    repeat split; discriminate.
  - replace (combined_length title artist <=? max_width) with false
      by (symmetry; now apply Z.leb_gt).
    rewrite Ho. repeat split; auto; unfold max_width in *; lia.
Qed.

Lemma engine_invariant_scoll (g : OutputGenerator) :
  engine_invariant g -> engine_invariant (scoll g).1.
Proof.
  intros Hg. unfold scoll.
  destruct (needs_scrolling g) eqn:Hn; simpl negb; cbv iota; [|exact Hg].
  set (g2 := set_display_offset (size_t (display_offset g + 1)) g).
  destruct Hg as (Hlen & Htext & Hscroll).
  destruct (Hscroll Hn) as [Hwide Hrange].
  assert (Hmod : 0 <= size_t (display_offset g + 1) < 2 ^ 64)
    by (apply Z.mod_pos_bound; lia).
  destruct (Z.le_gt_cases (display_offset g2 - to_display_utf8_len g2) 2)
    as [Hkeep|Hpast].
  - pose proof (display_keeps g2 Hn Hkeep) as Hd.
    destruct (display g2) as [g3 line]. simpl in *. subst g3.
    unfold engine_invariant. simpl. repeat split; auto; try tauto; lia.
  - assert (Hd : display g2
                 = (set_display_offset 0 g2,
                    window_line (is_playing g2)
                      (encode (utf8_substr (to_display g2) 0 max_width)))).
    { apply display_reset; [exact Hn | | ]; simpl in *; lia. }
    rewrite Hd. unfold engine_invariant. simpl.
    repeat split; auto; try tauto; unfold max_width in *; lia.
Qed.

Lemma engine_invariant_step (g g' : OutputGenerator) (lines : list string) :
  engine_step cache_path g g' lines -> engine_invariant g -> engine_invariant g'.
Proof.
  intros Hstep Hg. destruct Hstep as [faults pkill_ret player g fs|g|g fs].
  - unfold on_update_seleceted. fold (playing_flag player).
    destruct (art_url_recorded faults pkill_ret player g fs)
      as (g1 & fs1 & cerr & -> & Htd & Hl & Hn & Ho & Hp & Ht & Ha & _).
    assert (Hg1 : engine_invariant g1)
      by (apply (engine_invariant_ext g); assumption).
    destruct (_ && _) eqn:Hsame.
    + destruct (negb _).
      * match goal with |- context [display ?x] =>
          pose proof (engine_invariant_display x) as Hd;
          destruct (display x) as [g2 line]
        end.
        simpl in *. apply Hd.
        apply (engine_invariant_ext g1); auto.
      * exact Hg1.
    + match goal with |- context [display ?x] =>
        pose proof (engine_invariant_display x) as Hd;
        destruct (display x) as [g5 line]
      end.
      simpl in *. apply Hd.
      match goal with |- engine_invariant (set_is_playing _ ?u) =>
        apply (engine_invariant_ext u); auto
      end.
      apply engine_invariant_update; reflexivity.
  - now apply engine_invariant_scoll.
  - destruct Hg as (Hlen & Htext & _). unfold engine_invariant. simpl.
    repeat split; auto; discriminate.
Qed.

(** X23. Whatever sequence of updates, ticks and empty notifications the
    engine has gone through, the text it holds is the one built from the
    title and artist of its last render (escaped if their combined
    length is at most 50, raw otherwise) with that length recorded; and
    while it is scrolling, the length exceeds 50 and the scroll offset
    stays within one cycle, between 0 and the length plus 2. *)
Theorem engine_invariant_reachable (g : OutputGenerator) :
  engine_reachable cache_path g -> engine_invariant g.
Proof.
  induction 1 as [|g g' lines _ IH Hstep].
  - unfold engine_invariant. simpl. repeat split; discriminate.
  - exact (engine_invariant_step g g' lines Hstep IH).
Qed.

End UpdatesMore.

Section UpdatesSamples.
Import Engine.

Lemma update_renders_static_witness :
  run_cout (on_update_seleceted Samples.home_cache Fs.no_faults 0%Z
              (Samples.player "A" true) Engine.fresh ∅)
  = [Engine.window_line true "Song ~ Artist"].
Proof.
  exact (proj1 (update_renders_static Samples.home_cache Fs.no_faults 0%Z
                  (Samples.player "A" true) Engine.fresh ∅
                  ltac:(left; discriminate)
                  ltac:(vm_compute; discriminate))).
Defined.

Lemma update_toggles_playing_witness :
  run_cout (on_update_seleceted Samples.home_cache Fs.no_faults 0%Z
              (Samples.player "A" true) Samples.paused_engine ∅)
  = [Engine.window_line true "Song ~ Artist"] /\
  run_cout (on_update_seleceted Samples.home_cache Fs.no_faults 0%Z
              (Samples.titled Samples.text52 true) Samples.scrolling_engine ∅)
  = [Engine.window_line true
       "456789&lt;bcdefghijklmnopqrstuvwxyzABCDEFGHIJKLMNOP ~"].
Proof.
  split.
  - exact (proj1 (proj1 (proj2 (proj2 (proj2 (proj2 (proj2
             (update_toggles_playing Samples.home_cache Fs.no_faults 0%Z
                (Samples.player "A" true) Samples.paused_engine ∅
                eq_refl eq_refl ltac:(discriminate)))))))
             eq_refl)).
  - rewrite (proj1 (proj2 (proj2 (proj2 (proj2 (proj2 (proj2
               (update_toggles_playing Samples.home_cache Fs.no_faults 0%Z
                  (Samples.titled Samples.text52 true)
                  Samples.scrolling_engine ∅
                  ltac:(reflexivity) ltac:(reflexivity)
                  ltac:(discriminate)))))))
               4%nat ltac:(reflexivity)
               (single_byte_check Samples.text52 ltac:(vm_compute; reflexivity))
               ltac:(vm_compute; reflexivity) ltac:(reflexivity)
               ltac:(vm_compute; lia))).
    vm_compute. reflexivity.
Defined.

Lemma ticks_idle_when_static_witness :
  Engine.tick_output 7 Samples.paused_engine = [].
Proof.
  exact (proj2 (ticks_idle_when_static Samples.paused_engine 7 eq_refl)).
Defined.

Lemma empty_keeps_last_render_witness :
  run_cout (on_update_seleceted Samples.home_cache Fs.no_faults 0%Z
              (Samples.titled Samples.text52 true)
              (run_engine (Engine.on_empty Samples.scrolling_engine ∅)) ∅)
  = [Engine.window_line true Samples.text52].
Proof.
  exact (proj2 (proj2 (proj2 (empty_keeps_last_render Samples.home_cache
                                Samples.scrolling_engine ∅))
                  Fs.no_faults 0%Z (Samples.titled Samples.text52 true) ∅
                  eq_refl eq_refl)
           ltac:(discriminate)).
Defined.

Lemma rendered_text_escaped_witness :
  exists w,
    Engine.display_print_line
      "0123456789&lt;bcdefghijklmnopqrstuvwxyzABCDEFGHIJKLMN"
    = window_line true w /\
    TextEncoder.free_of TextEncoder.markup_bytes w.
Proof.
  apply (proj2 (rendered_text_escaped Samples.home_cache) Fs.no_faults 0%Z
           (Samples.titled Samples.text52 true) fresh ∅).
  - left. discriminate.
  - vm_compute. left. reflexivity.
Defined.

Lemma engine_invariant_reachable_witness :
  engine_invariant
    (scoll (run_engine
              (on_update_seleceted Samples.home_cache Fs.no_faults 0%Z
                 (Samples.titled Samples.text52 true) fresh ∅))).1.
Proof.
  apply (engine_invariant_reachable Samples.home_cache).
  eapply engine_next; [|apply step_tick].
  eapply engine_next; [apply engine_fresh|].
  apply (step_update Samples.home_cache Fs.no_faults 0%Z
           (Samples.titled Samples.text52 true) fresh ∅).
Defined.

End UpdatesSamples.

(** ** Cover-art cache and shutdown *)

Section CoverArtMore.
Import TextEncoder GLib Meta Registry Engine.
Local Open Scope Z_scope.

Variable cache_path : string.


(** X25. Whatever fails, [update_cover_art] touches nothing but the cache
    path and what lies beneath it: every other path of the file system
    holds afterwards what it held before. *)
Theorem cover_art_frame faults pkill_ret art_url g fs (q : string) :
  q <> cache_path ->
  Fs.beneath cache_path q = false ->
  (update_cover_art cache_path faults pkill_ret art_url g fs).1.2 !! q
  = fs !! q.
Proof.
  intros Hq Hb.
  unfold update_cover_art, cover_art_body, mbind, Fs.fs_bind, Fs.bind, mret,
    Fs.fs_ret, Fs.ret, Fs.symlink_status, Fs.remove_all, Fs.create_symlink.
  pose proof (removed_root cache_path fs) as Hremoved.
  pose proof (removed_elsewhere cache_path q fs Hq Hb) as Hother.
  destruct faults as [ss ra cs].
  destruct ss, ra as [done|], cs,
    (fs !! cache_path) as [[target| |]|] eqn:Hfs,
    (String.prefix "file://" art_url),
    (Fs.c_str (substring 7 (String.length art_url - 7) art_url))
      as [|c rest];
    cbv beta iota zeta
      delta [negb Fs.file_type_eqb Fs.symlink_status_fails
             Fs.remove_all_fails Fs.create_symlink_fails];
    rewrite ?Hremoved, ?Hfs; cbv beta iota; cbn [fst snd];
    rewrite ?lookup_insert_ne by congruence;
    rewrite ?partly_removed_elsewhere by exact Hb; auto.
Qed.

Lemma update_records_art_url faults pkill_ret player g fs :
  ls_art_url
    (last_src (run_engine
                 (on_update_seleceted cache_path faults pkill_ret player g fs)))
  = Meta.art_url (metadata (state player)).
Proof.
  unfold on_update_seleceted.
  destruct (art_url_recorded cache_path faults pkill_ret player g fs)
    as (g1 & fs1 & cerr & -> & _ & _ & _ & _ & _ & _ & _ & Hurl).
  repeat match goal with
  | |- context [if ?b then _ else _] => destruct b
  end;
  try match goal with |- context [display ?x] =>
    pose proof (display_last_src x) as [Hl _]; destruct (display x) as [g2 line]
  end; simpl in *; rewrite ?Hl; simpl; try exact Hurl.
  all: unfold update_to_display; destruct (_ <=? _); simpl; exact Hurl.
Qed.

(** X26. The cover-art routine runs only when the art URL differs from
    the last one: an update with the URL already recorded leaves the file
    system alone and writes nothing to [std::cerr]; and since every
    update records the URL of its player, a further update with the same
    URL does not touch the cache again, even if the first attempt
    failed. *)
Theorem cover_art_only_on_change faults pkill_ret player g fs :
  let r := on_update_seleceted cache_path faults pkill_ret player g fs in
  (Meta.art_url (metadata (state player)) = ls_art_url (last_src g) ->
   run_files r = fs /\ run_cerr r = []) /\
  (forall faults' pkill_ret' player',
      Meta.art_url (metadata (state player'))
        = Meta.art_url (metadata (state player)) ->
      let r' := on_update_seleceted cache_path faults' pkill_ret' player'
                  (run_engine r) (run_files r) in
      run_files r' = run_files r /\ run_cerr r' = []).
Proof.
  assert (Hsame : forall faults pkill_ret player g fs,
    Meta.art_url (metadata (state player)) = ls_art_url (last_src g) ->
    run_files (on_update_seleceted cache_path faults pkill_ret player g fs) = fs
    /\ run_cerr (on_update_seleceted cache_path faults pkill_ret player g fs)
       = []).
  { clear. intros faults pkill_ret player g fs Hurl.
    unfold on_update_seleceted. rewrite Hurl, String.eqb_refl. simpl negb.
    cbv iota.
    repeat match goal with
    | |- context [if ?b then _ else _] => destruct b
    end;
    try match goal with |- context [display ?x] => destruct (display x) end;
    simpl; auto. }
  intros r. split; [apply Hsame|].
  intros faults' pkill_ret' player' Hurl r'. apply Hsame.
  subst r. now rewrite update_records_art_url.
Qed.

End CoverArtMore.

Section CoverArtSamples.
Import Engine.


Lemma cover_art_frame_witness :
  (update_cover_art Samples.home_cache Fs.no_faults 0%Z
     "https://example.org/cover.png" fresh
     (<[ "/home/user/music/a.png" := Fs.RegularFile ]>
        {[ Samples.home_cache := Fs.Symlink "/old.png" ]})).1.2
    !! "/home/user/music/a.png"
  = Some Fs.RegularFile.
Proof.
  rewrite (cover_art_frame Samples.home_cache Fs.no_faults 0%Z
             "https://example.org/cover.png" fresh
             (<[ "/home/user/music/a.png" := Fs.RegularFile ]>
                {[ Samples.home_cache := Fs.Symlink "/old.png" ]})
             "/home/user/music/a.png"
             ltac:(vm_compute; discriminate)
             ltac:(vm_compute; reflexivity)).
  vm_compute. reflexivity.
Defined.

Lemma cover_art_only_on_change_witness :
  run_files (on_update_seleceted Samples.home_cache Fs.no_faults 0%Z
               (Samples.player "A" true) fresh
               {[ Samples.home_cache := Fs.Symlink "/old.png" ]})
  = {[ Samples.home_cache := Fs.Symlink "/old.png" ]}.
Proof.
  exact (proj1 (proj1 (cover_art_only_on_change Samples.home_cache
                         Fs.no_faults 0%Z (Samples.player "A" true) fresh
                         {[ Samples.home_cache := Fs.Symlink "/old.png" ]})
                  eq_refl)).
Defined.

End CoverArtSamples.

Section Shutdown.
Import Lifecycle.

(** X27. [exit_handler] acts once: its first call prints
    [Exiting cleanly...], stops the main loop if there is one and sets
    [handled_exit]; every later call (the handler is registered with
    [atexit] and for three signals) prints nothing and changes nothing,
    and no call sets a stopped loop running again. *)
Theorem exit_handler_once (gl : Globals) :
  let first := exit_handler gl in
  handled_exit first.1 = true /\
  exit_handler first.1 = (first.1, []) /\
  (handled_exit gl = false ->
   first.2 = [Engine.display_print_line "Exiting cleanly..."] /\
   main_loop first.1
   = match main_loop gl with Some _ => Some false | None => None end) /\
  (handled_exit gl = true -> first = (gl, [])) /\
  (main_loop gl <> Some true -> main_loop first.1 <> Some true).
Proof.
  unfold exit_handler. destruct (handled_exit gl) eqn:Hh; simpl.
  - rewrite Hh. repeat split; auto; discriminate.
  - repeat split; auto; try discriminate.
    destruct (main_loop gl); discriminate.
Qed.

Lemma exit_handler_once_witness :
  (exit_handler {| main_loop := Some true; handled_exit := false |}).2
  = [Engine.display_print_line "Exiting cleanly..."] /\
  exit_handler
    (exit_handler {| main_loop := Some true; handled_exit := false |}).1
  = ({| main_loop := Some false; handled_exit := true |}, []).
Proof.
  split.
  - exact (proj1 (proj1 (proj2 (proj2
             (exit_handler_once
                {| main_loop := Some true; handled_exit := false |})))
             eq_refl)).
  - exact (proj1 (proj2
             (exit_handler_once
                {| main_loop := Some true; handled_exit := false |}))).
Defined.

End Shutdown.

(** ** The program as a whole *)

Section AppFacts.
Import Meta Registry Engine App.
Local Open Scope Z_scope.

Variable cache_path : string.

Lemma add_result_shape pname r m m' effects :
  add_player_by_name pname r m = Returns (m', effects) ->
  (m' = m /\ exists v, effects = [call_display_print v]) \/
  managed_players m' <> [].
Proof.
  unfold add_player_by_name.
  destruct (existsb _ _); [intros [= <- <-]; left; eauto|].
  destruct r as [message|st]; [discriminate|].
  destruct (selected_idx m =? NON_IDX).
  - destruct (select_at _ _) as [[players' effects']| |] eqn:Hsel;
      try discriminate.
    intros [= <- _]. right. simpl.
    pose proof (select_at_uids _ _ _ _ Hsel) as Huids.
    intros ->. rewrite fmap_app in Huids. destruct (managed_players m);
      discriminate.
  - intros [= <- _]. right. simpl. destruct (managed_players m); discriminate.
Qed.

Lemma vanished_result_shape pname m m' effects :
  on_name_vanished pname m = Returns (m', effects) ->
  (m' = m /\ exists v, effects = [call_display_print v]) \/
  (managed_players m' = [] /\ effects = [call_on_empty]) \/
  managed_players m' <> [].
Proof.
  unfold on_name_vanished.
  destruct (find_entry pname m) as [[entry p]|];
    [|intros [= <- <-]; left; eauto].
  cbv zeta.
  assert (Hsel : forall idx players' effects',
    select_at idx (delete entry (managed_players m))
      = Returns (players', effects') -> players' <> []).
  { intros idx players' effects'. unfold select_at.
    destruct (at_index idx _) as [q|] eqn:Hq; [|discriminate].
    intros [= <- _] Hnil. apply (f_equal List.length) in Hnil.
    rewrite length_insert in Hnil. unfold at_index in Hq.
    destruct (0 <=? idx); [|discriminate].
    apply lookup_lt_Some in Hq. simpl in Hnil. lia. }
  destruct (is_selected p).
  - destruct (size (delete entry (managed_players m)) =? 0) eqn:Hsize.
    + intros [= <- <-]. right. left. split; [|reflexivity]. simpl.
      apply Z.eqb_eq in Hsize. unfold size in Hsize.
      destruct (delete entry (managed_players m)); [reflexivity|].
      simpl in Hsize. lia.
    + destruct (_ >=? _);
        destruct (select_at _ _) as [[players' effects']| |] eqn:Hs;
        try discriminate; intros [= <- _]; right; right; simpl; eauto.
  - destruct (select_at _ _) as [[players' effects']| |] eqn:Hs;
      try discriminate; intros [= <- _]; right; right; simpl; eauto.
Qed.

Lemma scoll_needs_scrolling (g : OutputGenerator) :
  needs_scrolling (scoll g).1 = needs_scrolling g.
Proof.
  unfold scoll. destruct (needs_scrolling g) eqn:Hn; simpl; [|exact Hn].
  match goal with |- context [display ?x] =>
    destruct (display_frame x) as [Hd|Hd]; destruct (display x) as [g1 line]
  end; simpl in *; subst g1; exact Hn.
Qed.

Lemma alter_state_head_selected (f : State -> State) (i : nat) (a : App) :
  head_selected (manager a) ->
  head_selected
    (manager (with_players
                (alter (with_state f) i (managed_players (manager a))) a)).
Proof.
  unfold head_selected. simpl.
  destruct (managed_players (manager a)) as [|p rest]; [auto|].
  intros (Hidx & Hp & Hrest). destruct i as [|i]; simpl.
  - auto.
  - repeat split; auto.
    apply (Forall_alter (fun q => is_selected q = false)); [exact Hrest|].
    intros q _ Hq. exact Hq.
Qed.

Lemma alter_state_between (f : State -> State) (i : nat) (a : App) :
  between_callbacks a ->
  between_callbacks
    (with_players (alter (with_state f) i (managed_players (manager a))) a).
Proof.
  intros (Hh & Hd & He). split; [|split].
  - now apply alter_state_head_selected.
  - unfold distinct_uids in *. simpl.
    rewrite (list_fmap_alter uid (with_state f) (fun u => u))
      by (apply Forall_forall; intros; reflexivity).
    rewrite list_alter_id by reflexivity. exact Hd.
  - simpl. intros Hnil. apply He.
    apply (f_equal List.length) in Hnil. rewrite length_alter in Hnil.
    destruct (managed_players (manager a)); [reflexivity | discriminate].
Qed.

Lemma step_keeps_between faults pkill_ret a ev a' out err :
  between_callbacks a ->
  step cache_path faults pkill_ret a ev = Returns (a', out, err) ->
  between_callbacks a'.
Proof.
  intros Hb. pose proof Hb as (Hh & Hd & He).
  destruct ev as [pname r|pname|i variant|i value|i value|i value|i|];
    simpl.
  - unfold on_name_appeared.
    destruct (add_player_by_name pname r (manager a)) as [[m' effects]| |]
      eqn:Hadd; try discriminate.
    intros [= <- _ _]. split; [|split]; simpl.
    + eapply add_keeps_head_selected; eauto.
    + eapply add_keeps_distinct; eauto.
    + destruct (add_result_shape _ _ _ _ _ Hadd) as [[-> [v ->]]|Hne];
        [exact He | congruence].
  - destruct (on_name_vanished pname (manager a)) as [[m' effects]| |]
      eqn:Hvan; try discriminate.
    intros [= <- _ _]. split; [|split]; simpl.
    + eapply vanished_keeps_head_selected; eauto.
    + eapply vanished_keeps_distinct; eauto.
    + destruct (vanished_result_shape _ _ _ _ Hvan)
        as [[-> [v ->]]|[[_ ->]|Hne]]; [exact He | reflexivity | congruence].
  - intros [= <- _ _]. now apply alter_state_between.
  - intros [= <- _ _]. now apply alter_state_between.
  - intros [= <- _ _]. now apply alter_state_between.
  - intros [= <- _ _]. now apply alter_state_between.
  - destruct (managed_players (manager a) !! i) as [player|] eqn:Hp.
    + intros [= <- _ _]. split; [exact Hh|]. split; [exact Hd|]. simpl.
      intros Hnil. rewrite Hnil in Hp. discriminate.
    + intros [= <- _ _]. exact Hb.
  - intros [= <- _ _]. split; [exact Hh|]. split; [exact Hd|]. simpl.
    rewrite scoll_needs_scrolling. exact He.
Qed.

Lemma reachable_between (a : App) :
  App.reachable cache_path a -> between_callbacks a.
Proof.
  induction 1 as [fs|faults pkill_ret a ev a' out err _ IH Hstep].
  - split; [reflexivity|]. split; [apply NoDup_nil_2 | reflexivity].
  - exact (step_keeps_between _ _ _ _ _ _ _ IH Hstep).
Qed.

Lemma run_reachable (evs : list Event) :
  forall a a',
    App.reachable cache_path a -> run cache_path a evs = Some a' ->
    App.reachable cache_path a'.
Proof.
  induction evs as [|ev rest IH]; intros a a' Ha; simpl.
  - intros [= <-]. exact Ha.
  - destruct (step cache_path Fs.no_faults 0 a ev) as [[[a1 out] err]| |]
      eqn:Hstep; try discriminate.
    apply IH. eapply reachable_step; eauto.
Qed.

(** X28. Between any two callbacks of the running program (names
    appearing and vanishing, property signals of any player, timer ticks,
    in any order), the registry has exactly one selected player when it
    manages any and none otherwise, the selected one is the first and the
    one [selected_player] returns, and no identity is managed twice; and
    while no player is managed, scrolling is off, so the timer writes
    nothing. *)
Theorem program_invariant (a : App) :
  App.reachable cache_path a ->
  selection_invariant (manager a) /\
  distinct_uids (manager a) /\
  selected_player (manager a) = Returns (head (managed_players (manager a))) /\
  (managed_players (manager a) = [] ->
   scoll (generator a) = (generator a, [])).
Proof.
  intros Ha. destruct (reachable_between a Ha) as (Hh & Hd & He).
  split; [now apply head_selected_invariant|]. split; [exact Hd|]. split.
  - unfold head_selected in Hh. unfold selected_player.
    destruct (managed_players (manager a)) as [|p rest].
    + now rewrite Hh.
    + destruct Hh as (Hidx & _). now rewrite Hidx.
  - intros Hnil. unfold scoll. now rewrite (He Hnil).
Qed.

(** X29. Only the selected player reaches the status line: in the running
    program, the [g-properties-changed] signal of a player at any
    position but the first changes nothing and writes nothing, whatever
    its state has become, while that of the first player is an update of
    the engine with that player's current state. *)
Theorem unselected_signal_ignored faults pkill_ret (a : App) (i : nat) :
  App.reachable cache_path a ->
  ((0 < i)%nat ->
   step cache_path faults pkill_ret a (properties_changed i)
   = Returns (a, [], [])) /\
  (forall p,
      managed_players (manager a) !! 0%nat = Some p ->
      step cache_path faults pkill_ret a (properties_changed 0)
      = finish (manager a)
          (on_update_seleceted cache_path faults pkill_ret p
             (generator a) (files a))).
Proof.
  intros Ha. destruct (reachable_between a Ha) as (Hh & _ & _).
  unfold head_selected in Hh. split.
  - intros Hi. simpl.
    destruct (managed_players (manager a) !! i) as [q|] eqn:Hq; [|reflexivity].
    destruct (managed_players (manager a)) as [|p rest]; [discriminate|].
    destruct Hh as (_ & _ & Hrest). destruct i as [|i]; [lia|].
    simpl in Hq. unfold on_state.
    rewrite (proj1 (Forall_lookup _ _) Hrest i q Hq).
    destruct a; reflexivity.
  - intros p Hp. simpl. rewrite Hp. unfold on_state.
    destruct (managed_players (manager a)) as [|p0 rest]; [discriminate|].
    destruct Hh as (_ & Hsel & _). injection Hp as <-. now rewrite Hsel.
Qed.

End AppFacts.

Section AppSamples.
Import Registry Engine App.

Lemma program_invariant_witness :
  match run Samples.home_cache (start ∅) Samples.two_players_appear with
  | Some a => selection_invariant (manager a)
  | None => False
  end.
Proof.
  pose proof (run_reachable Samples.home_cache Samples.two_players_appear
                (start ∅)) as Hreach.
  destruct (run Samples.home_cache (start ∅) Samples.two_players_appear)
    as [a|] eqn:Hrun; [|vm_compute in Hrun; discriminate].
  exact (proj1 (program_invariant Samples.home_cache a
                  (Hreach a (reachable_start _ ∅) eq_refl))).
Defined.

Lemma unselected_signal_ignored_witness :
  match run Samples.home_cache (start ∅) Samples.two_players_appear with
  | Some a =>
      step Samples.home_cache Fs.no_faults 0%Z a (properties_changed 1)
      = Returns (a, [], [])
  | None => False
  end.
Proof.
  pose proof (run_reachable Samples.home_cache Samples.two_players_appear
                (start ∅)) as Hreach.
  destruct (run Samples.home_cache (start ∅) Samples.two_players_appear)
    as [a|] eqn:Hrun; [|vm_compute in Hrun; discriminate].
  apply (proj1 (unselected_signal_ignored Samples.home_cache Fs.no_faults 0%Z
                  a 1 (Hreach a (reachable_start _ ∅) eq_refl))).
  lia.
Defined.

End AppSamples.
